(** * Inventory and Player: value types with a manually owned pointer

    A shallow embedding of [Inventory.cpp] and [Player.cpp].

    - Member functions that only touch the fields of [*this] are functions
      from the object to a result and the object afterwards ([Method]).
    - Member functions that allocate, deallocate or touch a second object
      (the special members and [discardEquipped]) run in a state monad [M]
      over a memory [Mem] that holds the free store of [Item]s and the live
      [Inventory] and [Player] objects by address; undefined behaviour
      (deleting or reading through a dangling pointer, using a dead object)
      is the failure of that monad. *)

From Stdlib Require Import ZArith Floats.SpecFloat.
From stdpp Require Import base option list gmap strings.

Local Open Scope Z_scope.

(** ** Scalar types *)

(** [float]: IEEE-754 binary32, round to nearest even. *)
Module Float32.
Definition prec : Z := 24.
Definition emax : Z := 128.
Definition t : Type := spec_float.
(** The literal [0] converted to [float]. *)
Definition zero : t := S754_zero false.
Definition add (x y : t) : t := SFadd prec emax x y.
(** The float nearest to [m * 2^e]; used to write literals. *)
Definition of_Z (m e : Z) : t := binary_normalize prec emax m e false.
End Float32.

(** [size_t]: 64-bit unsigned, arithmetic modulo [2^64]. *)
Module SizeT.
Definition modulus : Z := 2 ^ 64.
Definition wrap (z : Z) : Z := z mod modulus.
(** [x++] *)
Definition incr (x : Z) : Z := wrap (x + 1).
End SizeT.

(** Addresses; an [Item*] is [None] for [nullptr]. *)
Definition loc : Type := positive.
Definition ptr : Type := option loc.

(** ** Item *)

(** Modelled from the spec: [Item.hpp] is not among the sources.  The spec
    gives an Item a text name, a floating-point weight and a category from
    a closed enumeration whose member NONE marks an empty slot; the sources
    read the fields [type_] and [weight_] and name the categories [NONE],
    [WEAPON], [ARMOR] and [ACCESSORY].  The weight is taken to be a [float],
    like the weight the Inventory caches. *)
Inductive ItemType : Type := NONE | WEAPON | ARMOR | ACCESSORY.

#[global] Instance ItemType_eq_dec : EqDecision ItemType.
Proof. solve_decision. Defined.

Module Item.
Record t : Type := mk { name_ : string; weight_ : Float32.t; type_ : ItemType }.
#[global] Instance inhabited : Inhabited t := populate (mk "" Float32.zero NONE).
End Item.

(** ** Inventory: data members *)

Record Inventory : Type := mkInventory {
  inventory_grid_ : list (list Item.t);
  equipped_ : ptr;
  weight_ : Float32.t;
  item_count_ : Z
}.

(** Assignments to one data member. *)
Definition set_inventory_grid_ (g : list (list Item.t)) (i : Inventory) : Inventory :=
  mkInventory g (equipped_ i) (weight_ i) (item_count_ i).
Definition set_equipped_ (e : ptr) (i : Inventory) : Inventory :=
  mkInventory (inventory_grid_ i) e (weight_ i) (item_count_ i).
Definition set_weight_ (w : Float32.t) (i : Inventory) : Inventory :=
  mkInventory (inventory_grid_ i) (equipped_ i) w (item_count_ i).
Definition set_item_count_ (c : Z) (i : Inventory) : Inventory :=
  mkInventory (inventory_grid_ i) (equipped_ i) (weight_ i) c.

(** ** Member functions on [*this] alone *)

Inductive exception : Type := out_of_range (what : string).

Inductive result (A : Type) : Type :=
| Returned (a : A)
| Threw (e : exception).
Arguments Returned {A} a.
Arguments Threw {A} e.

(** A member function: the object before, to the outcome and the object
    afterwards (also when it throws). *)
Definition Method (A : Type) : Type := Inventory → result A * Inventory.

(** A [const] member function cannot assign to a data member. *)
Definition const_method {A} (f : Inventory → result A) : Method A :=
  λ this, (f this, this).

(** [Inventory::Inventory(items, equipped)]: the members are initialised to
    [items], [equipped], [0], [0]; the two loops then visit every item of
    every row in order.  (The default arguments are declared in the header,
    which is not among the sources.) *)
Definition Inventory_ctor_item (this : Inventory) (item : Item.t) : Inventory :=
  if decide (Item.type_ item ≠ NONE)
  then set_item_count_ (SizeT.incr (item_count_ this))
         (set_weight_ (Float32.add (weight_ this) (Item.weight_ item)) this)
  else this.

Definition Inventory_ctor (items : list (list Item.t)) (equipped : ptr) : Inventory :=
  let this := mkInventory items equipped Float32.zero 0 in
  foldl (λ this row, foldl Inventory_ctor_item this row) this (inventory_grid_ this).

Definition getEquipped : Method ptr := const_method (λ this, Returned (equipped_ this)).

Definition equip (itemToEquip : ptr) : Method unit :=
  λ this, (Returned tt, set_equipped_ itemToEquip this).

Definition getItems : Method (list (list Item.t)) :=
  const_method (λ this, Returned (inventory_grid_ this)).

Definition getWeight : Method Float32.t := const_method (λ this, Returned (weight_ this)).

Definition getCount : Method Z := const_method (λ this, Returned (item_count_ this)).

(** [row >= inventory_grid_.size() || col >= inventory_grid_[row].size()];
    [||] does not index the row when the first test holds.  The indices are
    [size_t] values on which no arithmetic is done: natural numbers. *)
Definition invalid_index (row col : nat) (this : Inventory) : bool :=
  if bool_decide (length (inventory_grid_ this) ≤ row)%nat then true
  else bool_decide (length (inventory_grid_ this !!! row) ≤ col)%nat.

(** [Inventory::at] *)
Definition at_ (row col : nat) : Method Item.t :=
  const_method (λ this,
    if invalid_index row col this
    then Threw (out_of_range "Invalid inventory index.")
    else Returned ((inventory_grid_ this !!! row) !!! col)).

(** [Inventory::store] *)
Definition store (row col : nat) (pickup : Item.t) : Method bool :=
  λ this,
    if invalid_index row col this
    then (Threw (out_of_range "Invalid inventory index."), this)
    else if decide (Item.type_ ((inventory_grid_ this !!! row) !!! col) ≠ NONE)
    then (Returned false, this)
    else
      let this := set_inventory_grid_
                    (alter (λ r, <[col := pickup]> r) row (inventory_grid_ this)) this in
      let this := set_weight_ (Float32.add (weight_ this) (Item.weight_ pickup)) this in
      let this := set_item_count_ (SizeT.incr (item_count_ this)) this in
      (Returned true, this).

(** ** Player: data members *)

Record Player : Type := mkPlayer {
  name_ : string;
  inventory_ : Inventory
}.

Definition set_name_ (n : string) (p : Player) : Player := mkPlayer n (inventory_ p).
Definition set_inventory_ (i : Inventory) (p : Player) : Player := mkPlayer (name_ p) i.

(** ** Memory *)

(** An [Inventory&] designates either a complete [Inventory] object or the
    [inventory_] member of a [Player] object; two references are the same
    object exactly when they are equal ([this != &rhs]). *)
Inductive iref : Type :=
| InvObj (a : loc)
| inventory_of (p : loc).

#[global] Instance iref_eq_dec : EqDecision iref.
Proof. solve_decision. Defined.

Record Mem : Type := mkMem {
  free_store : gmap loc Item.t;       (* Items made by [new], until [delete] *)
  inventories : gmap loc Inventory;   (* complete Inventory objects *)
  players : gmap loc Player           (* Player objects *)
}.

Definition empty_mem : Mem := mkMem ∅ ∅ ∅.

Definition set_free_store (h : gmap loc Item.t) (m : Mem) : Mem :=
  mkMem h (inventories m) (players m).

Definition lookup_inv (r : iref) (m : Mem) : option Inventory :=
  match r with
  | InvObj a => inventories m !! a
  | inventory_of p => inventory_ <$> players m !! p
  end.

Definition update_inv (r : iref) (i : Inventory) (m : Mem) : Mem :=
  match r with
  | InvObj a => mkMem (free_store m) (alter (λ _, i) a (inventories m)) (players m)
  | inventory_of p => mkMem (free_store m) (inventories m) (alter (set_inventory_ i) p (players m))
  end.

Definition lookup_name (p : loc) (m : Mem) : option string :=
  name_ <$> players m !! p.

Definition update_name (p : loc) (n : string) (m : Mem) : Mem :=
  mkMem (free_store m) (inventories m) (alter (set_name_ n) p (players m)).

(** ** The memory monad: state, and failure for undefined behaviour *)

Definition M (A : Type) : Type := Mem → option (A * Mem).

Definition ret {A} (a : A) : M A := λ m, Some (a, m).

Definition bind {A B} (c : M A) (k : A → M B) : M B :=
  λ m, match c m with
       | Some (a, m') => k a m'
       | None => None
       end.

Definition undefined {A} : M A := λ _, None.

Notation "'let*' x ':=' c 'in' k" := (bind c (λ x, k))
  (at level 10, x name, c at level 100, k at level 200).
Notation "c ';;' k" := (bind c (λ _, k))
  (at level 100, k at level 200, right associativity).

(** Reading a data member of the Inventory behind a reference. *)
Definition rd {A} (r : iref) (field : Inventory → A) : M A :=
  λ m, match lookup_inv r m with
       | Some i => Some (field i, m)
       | None => None
       end.

(** Assigning to a data member of the Inventory behind a reference. *)
Definition wr {A} (r : iref) (set : A → Inventory → Inventory) (v : A) : M unit :=
  λ m, match lookup_inv r m with
       | Some i => Some (tt, update_inv r (set v i) m)
       | None => None
       end.

(** Calling a member function of the first kind through a reference. *)
Definition call {A} (r : iref) (f : Method A) : M (result A) :=
  λ m, match lookup_inv r m with
       | Some i => Some ((f i).1, update_inv r (f i).2 m)
       | None => None
       end.

(** [new Item(v)]: a fresh address of the free store. *)
Definition new_Item (v : Item.t) : M ptr :=
  λ m, let l := fresh (dom (free_store m)) in
       Some (Some l, set_free_store (<[l := v]> (free_store m)) m).

(** [*p] *)
Definition deref (p : ptr) : M Item.t :=
  λ m, match p with
       | Some l => match free_store m !! l with
                   | Some v => Some (v, m)
                   | None => None
                   end
       | None => None
       end.

(** [delete p]: nothing for [nullptr]; undefined unless [p] is live. *)
Definition delete_Item (p : ptr) : M unit :=
  λ m, match p with
       | Some l => match free_store m !! l with
                   | Some _ => Some (tt, set_free_store (delete l (free_store m)) m)
                   | None => None
                   end
       | None => Some (tt, m)
       end.

(** ** Inventory: members that use the free store or a second object *)

(** [Inventory::discardEquipped] *)
Definition discardEquipped (this : iref) : M unit :=
  let* e := rd this equipped_ in
  match e with
  | Some _ => delete_Item e;; wr this set_equipped_ None
  | None => ret tt
  end.

(** [rhs.equipped_ ? new Item( *rhs.equipped_ ) : nullptr] *)
Definition clone_equipped (rhs : iref) : M ptr :=
  let* e := rd rhs equipped_ in
  match e with
  | Some _ => let* v := deref e in new_Item v
  | None => ret None
  end.

(** [Inventory::Inventory(const Inventory& rhs)]; a constructor yields the
    value of the object under construction, which the caller then places. *)
Definition Inventory_copy_ctor (rhs : iref) : M Inventory :=
  let* g := rd rhs inventory_grid_ in
  let* w := rd rhs weight_ in
  let* c := rd rhs item_count_ in
  let* e := clone_equipped rhs in
  ret (mkInventory g e w c).

(** [std::move] of a [std::vector] member into a new owner: the source
    vector is left empty, as the comments of the move members say (``all
    containers are cleared to have size 0''). *)
Definition move_inventory_grid_ (rhs : iref) : M (list (list Item.t)) :=
  let* g := rd rhs inventory_grid_ in
  wr rhs set_inventory_grid_ [];;
  ret g.

(** [Inventory::Inventory(Inventory&& rhs)] *)
Definition Inventory_move_ctor (rhs : iref) : M Inventory :=
  let* g := move_inventory_grid_ rhs in
  let* e := rd rhs equipped_ in
  let* w := rd rhs weight_ in
  let* c := rd rhs item_count_ in
  wr rhs set_equipped_ None;;
  wr rhs set_weight_ Float32.zero;;
  wr rhs set_item_count_ 0;;
  ret (mkInventory g e w c).

(** [Inventory::operator=(const Inventory& rhs)] *)
Definition Inventory_copy_assign (this rhs : iref) : M unit :=
  if decide (this ≠ rhs) then
    let* old := rd this equipped_ in
    delete_Item old;;
    let* g := rd rhs inventory_grid_ in
    wr this set_inventory_grid_ g;;
    let* w := rd rhs weight_ in
    wr this set_weight_ w;;
    let* c := rd rhs item_count_ in
    wr this set_item_count_ c;;
    let* e := clone_equipped rhs in
    wr this set_equipped_ e
  else ret tt.

(** [Inventory::operator=(Inventory&& rhs)] *)
Definition Inventory_move_assign (this rhs : iref) : M unit :=
  if decide (this ≠ rhs) then
    let* old := rd this equipped_ in
    delete_Item old;;
    let* g := move_inventory_grid_ rhs in
    wr this set_inventory_grid_ g;;
    let* e := rd rhs equipped_ in
    wr this set_equipped_ e;;
    let* w := rd rhs weight_ in
    wr this set_weight_ w;;
    let* c := rd rhs item_count_ in
    wr this set_item_count_ c;;
    wr rhs set_equipped_ None;;
    wr rhs set_weight_ Float32.zero;;
    wr rhs set_item_count_ 0
  else ret tt.

(** [Inventory::~Inventory] *)
Definition Inventory_dtor (this : iref) : M unit :=
  let* e := rd this equipped_ in
  delete_Item e;;
  wr this set_equipped_ None.

(** A complete [Inventory] object comes to life at a fresh address. *)
Definition place_Inventory (i : Inventory) : M iref :=
  λ m, let a := fresh (dom (inventories m)) in
       Some (InvObj a, mkMem (free_store m) (<[a := i]> (inventories m)) (players m)).

(** The life of a complete [Inventory] object ends: the destructor runs,
    then the object is gone. *)
Definition destroy_Inventory (a : loc) : M unit :=
  Inventory_dtor (InvObj a);;
  λ m, Some (tt, mkMem (free_store m) (delete a (inventories m)) (players m)).

(** ** Player *)

Definition rd_name (p : loc) : M string :=
  λ m, match lookup_name p m with
       | Some n => Some (n, m)
       | None => None
       end.

Definition wr_name (p : loc) (n : string) : M unit :=
  λ m, match lookup_name p m with
       | Some _ => Some (tt, update_name p n m)
       | None => None
       end.

(** [std::move] of a [std::string] member into a new owner.  The code
    does not touch the source string afterwards, and the language leaves a
    moved-from string valid with an unspecified value: [remains] is the
    value the library leaves there.  It is the empty string for a library
    that empties the source, and the old name of the destination for one
    that swaps on assignment. *)
Definition move_name_ (remains : string) (rhs : loc) : M string :=
  let* n := rd_name rhs in
  wr_name rhs remains;;
  ret n.

(** [Player::Player(const std::string& name, const Inventory& inventory)] *)
Definition Player_ctor (name : string) (inventory : iref) : M Player :=
  let* i := Inventory_copy_ctor inventory in
  ret (mkPlayer name i).

(** [Player::getName] *)
Definition getName (this : loc) : M string := rd_name this.

(** [Player::getInventoryRef] *)
Definition getInventoryRef (this : loc) : iref := inventory_of this.

(** [Player::Player(const Player& rhs)] *)
Definition Player_copy_ctor (rhs : loc) : M Player :=
  let* n := rd_name rhs in
  let* i := Inventory_copy_ctor (inventory_of rhs) in
  ret (mkPlayer n i).

(** [Player::Player(Player&& rhs)] *)
Definition Player_move_ctor (remains : string) (rhs : loc) : M Player :=
  let* n := move_name_ remains rhs in
  let* i := Inventory_move_ctor (inventory_of rhs) in
  ret (mkPlayer n i).

(** [Player::operator=(const Player& rhs)] *)
Definition Player_copy_assign (this rhs : loc) : M unit :=
  if decide (this ≠ rhs) then
    let* n := rd_name rhs in
    wr_name this n;;
    Inventory_copy_assign (inventory_of this) (inventory_of rhs)
  else ret tt.

(** [Player::operator=(Player&& rhs)] *)
Definition Player_move_assign (remains : string) (this rhs : loc) : M unit :=
  if decide (this ≠ rhs) then
    let* n := move_name_ remains rhs in
    wr_name this n;;
    Inventory_move_assign (inventory_of this) (inventory_of rhs)
  else ret tt.

(** A [Player] object comes to life at a fresh address. *)
Definition place_Player (p : Player) : M loc :=
  λ m, let a := fresh (dom (players m)) in
       Some (a, mkMem (free_store m) (inventories m) (<[a := p]> (players m))).

(** The life of a [Player] object ends: [Player] declares no destructor,
    so the implicit one destroys the members, then the object is gone. *)
Definition destroy_Player (p : loc) : M unit :=
  Inventory_dtor (inventory_of p);;
  λ m, Some (tt, mkMem (free_store m) (inventories m) (delete p (players m))).


(** ** Vocabulary of the properties *)

(** The cell at [(row, col)], when both indices are within bounds; rows may
    have different lengths. *)
Definition cell_at (row col : nat) (g : list (list Item.t)) : option Item.t :=
  g !! row ≫= (.!! col).

(** The out-of-range condition of [at] and [store]: the row index is past
    the last row, or the column index is past the end of that row. *)
Definition index_out_of_range (row col : nat) (g : list (list Item.t)) : Prop :=
  (length g ≤ row)%nat ∨ ∃ r, g !! row = Some r ∧ (length r ≤ col)%nat.

Definition threw {A} (o : result A * Inventory) : Prop := ∃ e, o.1 = Threw e.

(** The grid cells whose category is not [NONE], row by row. *)
Definition occupied (g : list (list Item.t)) : list Item.t :=
  filter (λ it, Item.type_ it ≠ NONE) (concat g).

(** Summing weights in [float], left to right; [float_sum] starts from [0]. *)
Definition float_sum_from (w : Float32.t) (l : list Item.t) : Float32.t :=
  foldl (λ acc it, Float32.add acc (Item.weight_ it)) w l.

Definition float_sum (l : list Item.t) : Float32.t := float_sum_from Float32.zero l.

(** The cached weight is the [float] sum of the occupied cells, taken in
    some order: [float] addition rounds, so the order is part of a sum. *)
Definition weight_ok (i : Inventory) : Prop :=
  ∃ l, l ≡ₚ occupied (inventory_grid_ i) ∧ weight_ i = float_sum l.

(** The cached count is the number of occupied cells, as a [size_t]. *)
Definition count_ok (i : Inventory) : Prop :=
  item_count_ i = SizeT.wrap (Z.of_nat (length (occupied (inventory_grid_ i)))).

Definition aggregates_ok (i : Inventory) : Prop := weight_ok i ∧ count_ok i.

(** Every Inventory of the memory has the right aggregates. *)
Definition all_ok (m : Mem) : Prop :=
  ∀ this i, lookup_inv this m = Some i → aggregates_ok i.

(** The state the move operations leave their source in. *)
Definition moved_from : Inventory := mkInventory [] None Float32.zero 0.

(** A pointer that may be passed to [delete]: null, or live. *)
Definition deletable (p : ptr) (m : Mem) : Prop :=
  match p with
  | Some l => is_Some (free_store m !! l)
  | None => True
  end.

#[global] Instance deletable_dec p m : Decision (deletable p m).
Proof. destruct p; apply _. Defined.

(** The free store after [delete p]. *)
Definition freed (p : ptr) (h : gmap loc Item.t) : gmap loc Item.t :=
  match p with
  | Some l => delete l h
  | None => h
  end.

(** The pointer and the free store after [p ? new Item( *p ) : nullptr];
    nothing when [p] dangles. *)
Definition cloned (p : ptr) (h : gmap loc Item.t) : option (ptr * gmap loc Item.t) :=
  match p with
  | Some l => match h !! l with
              | Some v => Some (Some (fresh (dom h)), <[fresh (dom h) := v]> h)
              | None => None
              end
  | None => Some (None, h)
  end.

(** The Item a pointer designates, if it is live. *)
Definition pointee (p : ptr) (m : Mem) : option Item.t :=
  p ≫= (free_store m !!.).

(** A client assigns through the pointer [getEquipped()] returned. *)
Definition assign_Item (p : ptr) (v : Item.t) : M unit :=
  λ m, match p with
       | Some l => match free_store m !! l with
                   | Some _ => Some (tt, set_free_store (<[l := v]> (free_store m)) m)
                   | None => None
                   end
       | None => None
       end.

(** The equipped item of an Inventory as a client sees it: the pointer
    [getEquipped()] returns and the Item behind it. *)
Definition equipped_item (b : iref) (m : Mem) : option (ptr * option Item.t) :=
  (λ i, (equipped_ i, pointee (equipped_ i) m)) <$> lookup_inv b m.

(** A client changes the equipped item of [a] in place. *)
Definition mutate_equipped (a : iref) (v : Item.t) : M unit :=
  let* p := call a getEquipped in
  match p with
  | Returned p => assign_Item p v
  | Threw _ => undefined
  end.

(** Changing or discarding the equipped item of [a] is defined and leaves
    the equipped item of [b] as it was. *)
Definition independent_of (a b : iref) (m : Mem) : Prop :=
  (∀ v, ∃ m', mutate_equipped a v m = Some (tt, m') ∧
              equipped_item b m' = equipped_item b m) ∧
  (∃ m', discardEquipped a m = Some (tt, m') ∧
         equipped_item b m' = equipped_item b m).

(** [copy] is a copy of [orig] with regard to the equipped item: an equal
    Item behind a different pointer, each independent of the other. *)
Definition equipped_copied (copy orig : iref) (v : Item.t) (m : Mem) : Prop :=
  (∃ ic io, lookup_inv copy m = Some ic ∧ lookup_inv orig m = Some io ∧
            equipped_ ic ≠ equipped_ io ∧
            pointee (equipped_ ic) m = Some v ∧
            pointee (equipped_ io) m = Some v) ∧
  independent_of copy orig m ∧
  independent_of orig copy m.

(** One statement of a program: a public operation on some object of the
    memory, the beginning or the end of the life of an object, or a use of
    an [Item] on the free store.  A statement that moves a Player carries
    [remains], what the library leaves in the moved-from name. *)
Inductive op : Type :=
| Op_new_Item (v : Item.t)
| Op_assign_Item (p : ptr) (v : Item.t)
| Op_delete_Item (p : ptr)
| Op_Inventory (items : list (list Item.t)) (equipped : ptr)
| Op_at (this : iref) (row col : nat)
| Op_store (this : iref) (row col : nat) (pickup : Item.t)
| Op_equip (this : iref) (itemToEquip : ptr)
| Op_discardEquipped (this : iref)
| Op_Inventory_copy (rhs : iref)
| Op_Inventory_move (rhs : iref)
| Op_copy_assign (this rhs : iref)
| Op_move_assign (this rhs : iref)
| Op_destroy_Inventory (a : loc)
| Op_Player (name : string) (inventory : iref)
| Op_Player_copy (rhs : loc)
| Op_Player_move (remains : string) (rhs : loc)
| Op_Player_copy_assign (this rhs : loc)
| Op_Player_move_assign (remains : string) (this rhs : loc)
| Op_destroy_Player (p : loc).

(** Running one statement; values returned and exceptions thrown are
    dropped, the memory is kept. *)
Definition exec (o : op) : M unit :=
  match o with
  | Op_new_Item v => new_Item v;; ret tt
  | Op_assign_Item p v => assign_Item p v
  | Op_delete_Item p => delete_Item p
  | Op_Inventory items equipped =>
      place_Inventory (Inventory_ctor items equipped);; ret tt
  | Op_at this row col => call this (at_ row col);; ret tt
  | Op_store this row col pickup => call this (store row col pickup);; ret tt
  | Op_equip this itemToEquip => call this (equip itemToEquip);; ret tt
  | Op_discardEquipped this => discardEquipped this
  | Op_Inventory_copy rhs =>
      let* i := Inventory_copy_ctor rhs in place_Inventory i;; ret tt
  | Op_Inventory_move rhs =>
      let* i := Inventory_move_ctor rhs in place_Inventory i;; ret tt
  | Op_copy_assign this rhs => Inventory_copy_assign this rhs
  | Op_move_assign this rhs => Inventory_move_assign this rhs
  | Op_destroy_Inventory a => destroy_Inventory a
  | Op_Player name inventory =>
      let* pl := Player_ctor name inventory in place_Player pl;; ret tt
  | Op_Player_copy rhs =>
      let* pl := Player_copy_ctor rhs in place_Player pl;; ret tt
  | Op_Player_move remains rhs =>
      let* pl := Player_move_ctor remains rhs in place_Player pl;; ret tt
  | Op_Player_copy_assign this rhs => Player_copy_assign this rhs
  | Op_Player_move_assign remains this rhs => Player_move_assign remains this rhs
  | Op_destroy_Player p => destroy_Player p
  end.

(** Running a program. *)
Definition exec_all (prog : list op) : M unit :=
  foldr (λ o k, exec o;; k) (ret tt) prog.

(** One permitted statement that runs without undefined behaviour. *)
Definition step (permitted : op → Mem → Prop) (m m' : Mem) : Prop :=
  ∃ o, permitted o m ∧ exec o m = Some (tt, m').

(** The memories a program of permitted statements reaches from nothing. *)
Definition reachable (permitted : op → Mem → Prop) (m : Mem) : Prop :=
  rtc (step permitted) empty_mem m.

(** Every statement of the program is permitted where it runs, and
    defined. *)
Fixpoint permitted_run (permitted : op → Mem → Prop) (prog : list op) (m : Mem) : Prop :=
  match prog with
  | [] => True
  | o :: prog =>
      permitted o m ∧
      match exec o m with
      | Some (_, m1) => permitted_run permitted prog m1
      | None => False
      end
  end.

(** No limit on the statements. *)
Definition any_op : op → Mem → Prop := λ _ _, True.

(** No Inventory holds the pointer. *)
Definition unowned (p : ptr) (m : Mem) : Prop :=
  ∀ this i l, p = Some l → lookup_inv this m = Some i → equipped_ i ≠ Some l.

(** Every Inventory owns the Item its equipped pointer designates: the
    pointer is null or live, and no two Inventories hold the same Item. *)
Definition owns_ok (m : Mem) : Prop :=
  (∀ this i, lookup_inv this m = Some i → deletable (equipped_ i) m) ∧
  (∀ a b ia ib l,
     lookup_inv a m = Some ia → lookup_inv b m = Some ib →
     equipped_ ia = Some l → equipped_ ib = Some l → a = b).

(** The client gives an Inventory only a pointer that is null or a live
    Item no Inventory holds, and deletes only Items no Inventory holds. *)
Definition hands_over : op → Mem → Prop :=
  λ o m, match o with
         | Op_Inventory _ e | Op_equip _ e => deletable e m ∧ unowned e m
         | Op_delete_Item p => unowned p m
         | _ => True
         end.

(** [store] is only given items whose category is not [NONE]. *)
Definition stores_occupied : op → Mem → Prop :=
  λ o _, match o with
         | Op_store _ _ _ pickup => Item.type_ pickup ≠ NONE
         | _ => True
         end.

(** The memory after a computation, or the memory as it was if the
    computation is undefined. *)
Definition run {A} (c : M A) (m : Mem) : Mem :=
  match c m with
  | Some (_, m') => m'
  | None => m
  end.

(** ** Statements about every run *)

(** Every reachable Inventory has the right aggregates, whatever [store]
    was given. *)
Definition aggregates_always_ok : Prop :=
  ∀ m this i, reachable any_op m → lookup_inv this m = Some i → aggregates_ok i.

(** A defined move assignment hands the state of [rhs] to [this] and
    leaves [rhs] in the moved-from state. *)
Definition move_assign_empties_source (this rhs : iref) (m : Mem) : Prop :=
  ∀ r m',
    lookup_inv rhs m = Some r →
    Inventory_move_assign this rhs m = Some (tt, m') →
    lookup_inv this m' = Some r ∧ lookup_inv rhs m' = Some moved_from.

(** A defined copy assignment from an Inventory with a live equipped item
    leaves [this] and [rhs] with independent equipped items. *)
Definition copy_assign_makes_independent (this rhs : iref) (m : Mem) : Prop :=
  ∀ r l v m',
    lookup_inv rhs m = Some r →
    equipped_ r = Some l →
    free_store m !! l = Some v →
    Inventory_copy_assign this rhs m = Some (tt, m') →
    independent_of this rhs m' ∧ independent_of rhs this m'.

(** A defined move assignment of Players hands name and inventory of [rhs]
    to [this] and leaves [rhs] with a moved-from inventory and the name the
    library leaves. *)
Definition Player_move_assign_hands_over (this rhs : loc) (m : Mem) : Prop :=
  ∀ remains pr m',
    players m !! rhs = Some pr →
    Player_move_assign remains this rhs m = Some (tt, m') →
    players m' !! this = Some pr ∧
    players m' !! rhs = Some (mkPlayer remains moved_from).

(** After every defined move assignment of a Player into a different
    Player the name of the source is empty, whatever the library leaves in
    a moved-from string. *)
Definition Player_move_empties_name : Prop :=
  ∀ remains (this rhs : loc) m m',
    this ≠ rhs →
    Player_move_assign remains this rhs m = Some (tt, m') →
    lookup_name rhs m' = Some "".

(** ** Sample data *)

(** Two addresses. *)
Definition L1 : loc := 1%positive.
Definition L2 : loc := 2%positive.

Definition sword : Item.t := Item.mk "Excalibur" (Float32.of_Z 21 (-1)) WEAPON.
Definition shield : Item.t := Item.mk "Shield" (Float32.of_Z 5 0) ARMOR.
(** The [float] nearest to 3.2 is [13421773 * 2^-22]. *)
Definition helmet : Item.t := Item.mk "Helmet" (Float32.of_Z 13421773 (-22)) ARMOR.
Definition potion : Item.t := Item.mk "Health Potion" (Float32.of_Z 1 (-1)) ACCESSORY.
(** An empty slot, and an item of category [NONE] that has a weight. *)
Definition blank : Item.t := Item.mk "" Float32.zero NONE.
Definition ghost : Item.t := Item.mk "Ghost" (Float32.of_Z 1 0) NONE.

Definition pebble : Item.t := Item.mk "Pebble" (Float32.of_Z 1 0) ACCESSORY.
Definition anvil : Item.t := Item.mk "Anvil" (Float32.of_Z 16777216 0) WEAPON.

Definition grid2x2 : list (list Item.t) := [[sword; sword]; [sword; sword]].

(** An Inventory of one empty cell. *)
Definition one_cell : Inventory := Inventory_ctor [[blank]] None.

(** A memory with two Items on the free store, two Inventory objects (the
    first has the shield equipped) and two Players (the first has the
    helmet equipped). *)
Definition sample_mem : Mem :=
  mkMem
    (<[L2 := helmet]> {[L1 := shield]})
    (<[L2 := Inventory_ctor [[blank; potion]] None]>
       {[L1 := Inventory_ctor grid2x2 (Some L1)]})
    (<[L2 := mkPlayer "Squire" one_cell]>
       {[L1 := mkPlayer "Knight" (Inventory_ctor grid2x2 (Some L2))]}).

(** Construct a one-cell Inventory, then store an item in the cell. *)
Definition one_cell_then_store (pickup : Item.t) : Mem :=
  run (exec_all [Op_Inventory [[blank]] None; Op_store (InvObj L1) 0 0 pickup])
    empty_mem.

Create HintDb inv.

(** ** Further vocabulary *)

(** The shape of a grid: the length of every row. *)
Definition shape (g : list (list Item.t)) : list nat := length <$> g.

(** The Inventory after a series of [store] calls, whatever each of them
    returned or threw. *)
Definition store_all (calls : list (nat * nat * Item.t)) (this : Inventory) : Inventory :=
  foldl (λ this call, (store call.1.1 call.1.2 call.2 this).2) this calls.

(** An object is constructed in storage that is there: the storage takes
    the value the constructor made. *)
Definition emplace (this : iref) (i : Inventory) : M unit :=
  λ m, match lookup_inv this m with
       | Some _ => Some (tt, update_inv this i m)
       | None => None
       end.

(** Some Inventory has the Item at [l] equipped. *)
Definition held (l : loc) (m : Mem) : Prop :=
  ∃ this i, lookup_inv this m = Some i ∧ equipped_ i = Some l.

(** Every Item of the free store is equipped by some Inventory: no Item
    is out of the reach of the destructors. *)
Definition no_garbage (m : Mem) : Prop :=
  ∀ l, is_Some (free_store m !! l) → held l m.

(** From [m] to [m'] no Item got out of the reach of the destructors:
    an Item of [m'] that was not in [m] is held, and an Item of [m'] that
    was held in [m] is held in [m']. *)
Definition keeps_holders (m m' : Mem) : Prop :=
  ∀ l, is_Some (free_store m' !! l) →
       (is_Some (free_store m !! l) ∨ held l m') ∧ (held l m → held l m').

(** The statements in which the members look after the Items: all but a
    bare [new], whose Item is the client's, and an [equip] on an
    Inventory that has another Item equipped. *)
Definition looks_after (o : op) (m : Mem) : Prop :=
  match o with
  | Op_new_Item _ => False
  | Op_equip this p =>
      ∀ t, lookup_inv this m = Some t → equipped_ t = None ∨ equipped_ t = p
  | _ => True
  end.

(** Every object and every Item a statement names is live where the
    statement runs. *)
Definition names_live (o : op) (m : Mem) : Prop :=
  match o with
  | Op_new_Item _ | Op_Inventory _ _ => True
  | Op_assign_Item p _ => is_Some (pointee p m)
  | Op_delete_Item p => deletable p m
  | Op_at this _ _ | Op_store this _ _ _ | Op_equip this _ | Op_discardEquipped this =>
      is_Some (lookup_inv this m)
  | Op_Inventory_copy rhs | Op_Inventory_move rhs | Op_Player _ rhs =>
      is_Some (lookup_inv rhs m)
  | Op_copy_assign this rhs | Op_move_assign this rhs =>
      is_Some (lookup_inv this m) ∧ is_Some (lookup_inv rhs m)
  | Op_destroy_Inventory a => is_Some (inventories m !! a)
  | Op_Player_copy rhs | Op_Player_move _ rhs | Op_destroy_Player rhs =>
      is_Some (players m !! rhs)
  | Op_Player_copy_assign this rhs | Op_Player_move_assign _ this rhs =>
      is_Some (players m !! this) ∧ is_Some (players m !! rhs)
  end.

(** Every statement of the program, where it runs, hands over ownership
    and names live objects only. Nothing is asked of a statement that is
    not reached. *)
Fixpoint checked_run (prog : list op) (m : Mem) : Prop :=
  match prog with
  | [] => True
  | o :: prog =>
      hands_over o m ∧ names_live o m ∧
      ∀ m1, exec o m = Some (tt, m1) → checked_run prog m1
  end.

(** [i] is a deep copy of [r], made on the free store [h0] and leaving
    the free store [h]: the grid, the weight and the count are those of
    [r]; if [r] has nothing equipped neither has [i] and the free store is
    as it was; otherwise [i] has equipped one new Item, equal to the one
    [r] has equipped, and every other Item is as it was. *)
Definition deep_copy_of (i r : Inventory) (h0 h : gmap loc Item.t) : Prop :=
  inventory_grid_ i = inventory_grid_ r ∧
  weight_ i = weight_ r ∧
  item_count_ i = item_count_ r ∧
  match equipped_ r with
  | None => equipped_ i = None ∧ h = h0
  | Some l =>
      ∃ l' v, equipped_ i = Some l' ∧ l' ≠ l ∧
              h0 !! l = Some v ∧ h0 !! l' = None ∧ h = <[l' := v]> h0
  end.

(** A temporary copy of [rhs]: constructed, then destroyed. *)
Definition temporary_copy (rhs : iref) : M unit :=
  let* i := Inventory_copy_ctor rhs in
  let* tmp := place_Inventory i in
  match tmp with
  | InvObj a => destroy_Inventory a
  | inventory_of _ => undefined
  end.

(** A client gives one [new] Item to the constructors of two
    Inventories. *)
Definition two_owners : Mem :=
  run (exec_all [Op_new_Item shield;
                 Op_Inventory grid2x2 (Some L1);
                 Op_Inventory [[blank]] (Some L1)]) empty_mem.

(** * Properties *)

(** ** Reading and writing the memory *)

Section memory.
Implicit Types (m : Mem) (r : iref) (i : Inventory) (p : loc) (n : string).

Lemma lookup_update_eq r i m :
  lookup_inv r (update_inv r i m) = (λ _, i) <$> lookup_inv r m.
Proof.
  destruct r as [a|p]; simpl.
  - rewrite lookup_alter_eq. by destruct (inventories m !! a).
  - rewrite lookup_alter_eq. by destruct (players m !! p).
Qed.

Lemma lookup_update_ne r r' i m :
  r ≠ r' → lookup_inv r' (update_inv r i m) = lookup_inv r' m.
Proof.
  intros Hne. destruct r as [a|p], r' as [a'|p']; simpl; try done.
  - rewrite lookup_alter_ne; [done | congruence].
  - rewrite lookup_alter_ne; [done | congruence].
Qed.

Lemma lookup_inv_set_free_store r h m :
  lookup_inv r (set_free_store h m) = lookup_inv r m.
Proof. by destruct r. Qed.

Lemma lookup_inv_update_name r p n m :
  lookup_inv r (update_name p n m) = lookup_inv r m.
Proof.
  destruct r as [a|q]; simpl; [done|].
  destruct (decide (p = q)) as [->|Hne].
  - rewrite lookup_alter_eq. by destruct (players m !! q).
  - by rewrite lookup_alter_ne.
Qed.

Lemma free_store_update_inv r i m : free_store (update_inv r i m) = free_store m.
Proof. by destruct r. Qed.

Lemma free_store_update_name p n m : free_store (update_name p n m) = free_store m.
Proof. done. Qed.

Lemma free_store_set_free_store h m : free_store (set_free_store h m) = h.
Proof. done. Qed.

Lemma lookup_name_update_inv p r i m :
  lookup_name p (update_inv r i m) = lookup_name p m.
Proof.
  destruct r as [a|q]; unfold lookup_name; simpl; [done|].
  destruct (decide (q = p)) as [->|Hne].
  - rewrite lookup_alter_eq. by destruct (players m !! p).
  - by rewrite lookup_alter_ne.
Qed.

Lemma lookup_name_update_name_eq p n m :
  lookup_name p (update_name p n m) = (λ _, n) <$> lookup_name p m.
Proof.
  unfold lookup_name; simpl. rewrite lookup_alter_eq. by destruct (players m !! p).
Qed.

Lemma lookup_name_update_name_ne p q n m :
  p ≠ q → lookup_name q (update_name p n m) = lookup_name q m.
Proof. intros Hne. unfold lookup_name; simpl. by rewrite lookup_alter_ne. Qed.

Lemma lookup_name_set_free_store p h m :
  lookup_name p (set_free_store h m) = lookup_name p m.
Proof. done. Qed.

(** A memory is determined by its free store, the Inventory behind every
    reference and the name of every Player. *)
Lemma Mem_ext m1 m2 :
  free_store m1 = free_store m2 →
  (∀ r, lookup_inv r m1 = lookup_inv r m2) →
  (∀ p, lookup_name p m1 = lookup_name p m2) →
  m1 = m2.
Proof.
  destruct m1 as [h1 is1 ps1], m2 as [h2 is2 ps2]; simpl.
  intros -> Hinv Hname. f_equal.
  - apply map_eq. intros a. apply (Hinv (InvObj a)).
  - apply map_eq. intros p.
    specialize (Hinv (inventory_of p)). specialize (Hname p).
    unfold lookup_name in Hname. simpl in *.
    destruct (ps1 !! p) as [[n1 i1]|], (ps2 !! p) as [[n2 i2]|]; simpl in *; congruence.
Qed.
End memory.

(** ** Indexing the grid: [at] and [store] *)

Section indexing.
Implicit Types (this : Inventory) (row col : nat) (pickup c : Item.t).

Lemma invalid_index_true row col this :
  invalid_index row col this = true ↔
  index_out_of_range row col (inventory_grid_ this).
Proof.
  unfold invalid_index, index_out_of_range.
  case_bool_decide as Hrow.
  - split; [by left | done].
  - apply Nat.nle_gt in Hrow.
    destruct (lookup_lt_is_Some_2 _ _ Hrow) as [r Hr].
    rewrite (list_lookup_total_correct _ _ _ Hr).
    rewrite bool_decide_eq_true. split.
    + intros Hcol. right. by exists r.
    + intros [Hge | (r' & Hr' & Hcol)]; [lia | congruence].
Qed.

Lemma invalid_index_false row col this :
  invalid_index row col this = false ↔
  is_Some (cell_at row col (inventory_grid_ this)).
Proof.
  rewrite <-not_true_iff_false, invalid_index_true.
  unfold index_out_of_range, cell_at. split.
  - intros Hin. destruct (inventory_grid_ this !! row) as [r|] eqn:Hr; simpl.
    + apply lookup_lt_is_Some. apply Nat.lt_nge. intros Hcol.
      apply Hin. right. by exists r.
    + exfalso. apply Hin. left. by apply lookup_ge_None.
  - intros [c Hc] [Hrow | (r & Hr & Hcol)].
    + apply lookup_ge_None in Hrow. by rewrite Hrow in Hc.
    + rewrite Hr in Hc. simpl in Hc. apply lookup_lt_Some in Hc. lia.
Qed.

Lemma cell_at_total row col this c :
  cell_at row col (inventory_grid_ this) = Some c →
  invalid_index row col this = false ∧
  (inventory_grid_ this !!! row) !!! col = c.
Proof.
  intros Hc. split; [apply invalid_index_false; by rewrite Hc|].
  unfold cell_at in Hc.
  destruct (inventory_grid_ this !! row) as [r|] eqn:Hr; [simpl in Hc | done].
  rewrite (list_lookup_total_correct _ _ _ Hr).
  by apply list_lookup_total_correct.
Qed.

(** The grid after [inventory_grid_[row][col] = pickup]. *)
Lemma cell_at_assign row col pickup g row' col' :
  is_Some (cell_at row col g) →
  cell_at row' col' (alter (λ r, <[col := pickup]> r) row g) =
    if decide (row' = row ∧ col' = col) then Some pickup else cell_at row' col' g.
Proof.
  intros [c Hc]. unfold cell_at in *.
  destruct (g !! row) as [r|] eqn:Hr; [simpl in Hc | done].
  destruct (decide (row' = row)) as [->|Hrow].
  - rewrite list_lookup_alter_eq, Hr. simpl.
    destruct (decide (col' = col)) as [->|Hcol].
    + rewrite decide_True by done.
      apply list_lookup_insert_eq. by apply lookup_lt_Some in Hc.
    + rewrite decide_False by tauto. by apply list_lookup_insert_ne.
  - rewrite decide_False by tauto. by rewrite list_lookup_alter_ne.
Qed.

(** C2. [at(row, col)] and [store(row, col, item)] throw [out_of_range]
    exactly when [row] is at least the number of rows or [col] is at
    least the length of row [row] (each row has its own bound), and an
    operation that throws leaves the Inventory as it was: grid, weight,
    count and equipped pointer. *)
Theorem at_store_out_of_range this row col pickup :
  (threw (at_ row col this) ↔ index_out_of_range row col (inventory_grid_ this)) ∧
  (threw (store row col pickup this) ↔
     index_out_of_range row col (inventory_grid_ this)) ∧
  (index_out_of_range row col (inventory_grid_ this) →
     at_ row col this = (Threw (out_of_range "Invalid inventory index."), this) ∧
     store row col pickup this =
       (Threw (out_of_range "Invalid inventory index."), this)).
Proof.
  rewrite <-invalid_index_true.
  unfold threw, at_, store, const_method.
  destruct (invalid_index row col this); simpl.
  - repeat split; eauto.
  - repeat split; try done.
    + by intros [e ?].
    + intros [e He]. by case_decide.
Qed.

(** [store] into an empty cell that is within bounds, in closed form. *)
Lemma store_into_empty this row col pickup c :
  cell_at row col (inventory_grid_ this) = Some c →
  Item.type_ c = NONE →
  store row col pickup this =
    (Returned true,
     mkInventory
       (alter (λ r, <[col := pickup]> r) row (inventory_grid_ this))
       (equipped_ this)
       (Float32.add (weight_ this) (Item.weight_ pickup))
       (SizeT.incr (item_count_ this))).
Proof.
  intros Hc Hnone. destruct (cell_at_total _ _ _ _ Hc) as [Hvalid Hcell].
  unfold store. rewrite Hvalid, Hcell, decide_False; [done | by intros []].
Qed.

Lemma incr_small k :
  0 ≤ k < SizeT.modulus - 1 → SizeT.incr k = k + 1.
Proof. intros Hk. unfold SizeT.incr, SizeT.wrap. apply Z.mod_small. lia. Qed.

(** C3. When [(row, col)] is within bounds and the cell there has category
    [NONE], [store(row, col, item)] returns [true]; afterwards that cell
    is [item], every other cell is as before, the weight is the old
    weight plus the item's weight (in [float]), and the count is the old
    count incremented (as a [size_t]: old count + 1 short of overflow).
    The equipped pointer is untouched. *)
Theorem store_empty_cell this row col pickup c :
  cell_at row col (inventory_grid_ this) = Some c →
  Item.type_ c = NONE →
  ∃ this',
    store row col pickup this = (Returned true, this') ∧
    cell_at row col (inventory_grid_ this') = Some pickup ∧
    (∀ row' col', (row', col') ≠ (row, col) →
       cell_at row' col' (inventory_grid_ this') =
       cell_at row' col' (inventory_grid_ this)) ∧
    weight_ this' = Float32.add (weight_ this) (Item.weight_ pickup) ∧
    item_count_ this' = SizeT.incr (item_count_ this) ∧
    (0 ≤ item_count_ this < SizeT.modulus - 1 →
       item_count_ this' = item_count_ this + 1) ∧
    equipped_ this' = equipped_ this.
Proof.
  intros Hc Hnone. eexists. split; [by apply (store_into_empty _ _ _ _ c)|].
  simpl. repeat split.
  - rewrite cell_at_assign by (by rewrite Hc). by rewrite decide_True.
  - intros row' col' Hne. rewrite cell_at_assign by (by rewrite Hc).
    rewrite decide_False; [done | intros [-> ->]; done].
  - apply incr_small.
Qed.

(** C4. When [(row, col)] is within bounds and the cell there has a
    category other than [NONE], [store(row, col, item)] returns [false]
    and the Inventory is as before: grid, weight and count (and the
    equipped pointer). *)
Theorem store_occupied_cell this row col pickup c :
  cell_at row col (inventory_grid_ this) = Some c →
  Item.type_ c ≠ NONE →
  store row col pickup this = (Returned false, this).
Proof.
  intros Hc Hocc. destruct (cell_at_total _ _ _ _ Hc) as [Hvalid Hcell].
  unfold store. by rewrite Hvalid, Hcell, decide_True.
Qed.
End indexing.

(** ** The cached aggregates *)

Section aggregates.
Implicit Types (this : Inventory) (g : list (list Item.t)) (l : list Item.t).

Lemma wrap_incr k : SizeT.incr (SizeT.wrap k) = SizeT.wrap (k + 1).
Proof. unfold SizeT.incr, SizeT.wrap. by rewrite Z.add_mod_idemp_l. Qed.

Lemma float_sum_snoc l it :
  float_sum (l ++ [it]) = Float32.add (float_sum l) (Item.weight_ it).
Proof. unfold float_sum, float_sum_from. by rewrite foldl_app. Qed.

Lemma occupied_cons row g :
  occupied (row :: g) = filter (λ it, Item.type_ it ≠ NONE) row ++ occupied g.
Proof. unfold occupied. simpl. by rewrite filter_app. Qed.

(** The inner loop of the constructor over one row. *)
Lemma Inventory_ctor_row row this k :
  item_count_ this = SizeT.wrap k →
  foldl Inventory_ctor_item this row =
    mkInventory (inventory_grid_ this) (equipped_ this)
      (float_sum_from (weight_ this) (filter (λ it, Item.type_ it ≠ NONE) row))
      (SizeT.wrap (k + Z.of_nat (length (filter (λ it, Item.type_ it ≠ NONE) row)))).
Proof.
  revert this k. induction row as [|item row IH]; intros this k Hk; simpl.
  - rewrite Z.add_0_r, <-Hk. by destruct this.
  - unfold Inventory_ctor_item at 2. rewrite filter_cons. case_decide.
    + erewrite IH; simpl; [|by rewrite Hk, wrap_incr].
      do 2 f_equal. lia.
    + by apply IH.
Qed.

(** The outer loop. *)
Lemma Inventory_ctor_rows g this k :
  item_count_ this = SizeT.wrap k →
  foldl (λ this row, foldl Inventory_ctor_item this row) this g =
    mkInventory (inventory_grid_ this) (equipped_ this)
      (float_sum_from (weight_ this) (occupied g))
      (SizeT.wrap (k + Z.of_nat (length (occupied g)))).
Proof.
  revert this k. induction g as [|row g IH]; intros this k Hk; simpl.
  - rewrite Z.add_0_r, <-Hk. by destruct this.
  - erewrite Inventory_ctor_row by done.
    erewrite IH by done. simpl.
    rewrite occupied_cons, length_app. unfold float_sum_from. rewrite foldl_app.
    do 2 f_equal. lia.
Qed.

(** The constructor in closed form: the grid and the pointer as given, the
    row-major [float] sum and the wrapped number of the occupied cells. *)
Lemma Inventory_ctor_eq items equipped :
  Inventory_ctor items equipped =
    mkInventory items equipped (float_sum (occupied items))
      (SizeT.wrap (Z.of_nat (length (occupied items)))).
Proof.
  unfold Inventory_ctor. simpl.
  by erewrite (Inventory_ctor_rows items _ 0) by done.
Qed.

Lemma Inventory_ctor_aggregates items equipped :
  aggregates_ok (Inventory_ctor items equipped).
Proof.
  rewrite Inventory_ctor_eq. split; [|done].
  by exists (occupied items).
Qed.

Lemma moved_from_aggregates : aggregates_ok moved_from.
Proof. split; [by exists [] | done]. Qed.

(** Assigning one cell changes one position of the row-major sequence. *)
Lemma concat_assign g row col pickup c :
  cell_at row col g = Some c →
  ∃ l1 l2, concat g = l1 ++ c :: l2 ∧
           concat (alter (λ r, <[col := pickup]> r) row g) = l1 ++ pickup :: l2.
Proof.
  unfold cell_at. revert row. induction g as [|r g IH]; intros [|row] Hc;
    simpl in Hc; try done.
  - exists (take col r), (drop (S col) r ++ concat g).
    change (alter (λ r, <[col := pickup]> r) 0%nat (r :: g)) with (<[col := pickup]> r :: g).
    rewrite !concat_cons.
    rewrite insert_take_drop by (by apply lookup_lt_Some in Hc).
    rewrite <-(take_drop_middle r col c) at 1 by done.
    by rewrite <-!app_assoc.
  - destruct (IH row Hc) as (l1 & l2 & H1 & H2).
    exists (r ++ l1), l2.
    change (alter (λ r, <[col := pickup]> r) (S row) (r :: g))
      with (r :: alter (λ r, <[col := pickup]> r) row g).
    rewrite !concat_cons, H1, H2. by rewrite <-!app_assoc.
Qed.

Lemma occupied_assign g row col pickup c :
  cell_at row col g = Some c →
  Item.type_ c = NONE →
  (Item.type_ pickup ≠ NONE →
     occupied (alter (λ r, <[col := pickup]> r) row g) ≡ₚ occupied g ++ [pickup]) ∧
  (Item.type_ pickup = NONE →
     occupied (alter (λ r, <[col := pickup]> r) row g) = occupied g).
Proof.
  intros Hc Hnone. destruct (concat_assign g row col pickup c Hc) as (l1 & l2 & Hg & Hg').
  unfold occupied. rewrite Hg, Hg', !filter_app, !filter_cons.
  rewrite (decide_False (P := Item.type_ c ≠ NONE)) by (by intros []).
  split; intros Hp.
  - rewrite decide_True by done.
    rewrite <-app_assoc. apply Permutation_app_head.
    by rewrite Permutation_cons_append.
  - rewrite decide_False; [done | by intros []].
Qed.

(** [store] of an item that is not of category [NONE] keeps the
    aggregates right, whatever it returns. *)
Lemma store_aggregates this row col pickup :
  Item.type_ pickup ≠ NONE →
  aggregates_ok this →
  aggregates_ok (store row col pickup this).2.
Proof.
  intros Hp [(l & Hl & Hw) Hcount]. unfold store.
  destruct (invalid_index row col this) eqn:Hvalid; [by split; [exists l|]|].
  case_decide as Hocc; [by split; [exists l|]|].
  apply invalid_index_false in Hvalid as [c Hc].
  destruct (cell_at_total _ _ _ _ Hc) as [_ Hcell]. rewrite Hcell in Hocc.
  assert (Item.type_ c = NONE) as Hnone by (by destruct (Item.type_ c); try done; destruct Hocc).
  destruct (occupied_assign _ row col pickup c Hc Hnone) as [Hperm _].
  specialize (Hperm Hp). split; simpl.
  - exists (l ++ [pickup]). split.
    + by rewrite Hperm, Hl.
    + by rewrite float_sum_snoc, Hw.
  - unfold count_ok in *. simpl. rewrite Hcount, wrap_incr, Hperm, length_app. simpl.
    f_equal. lia.
Qed.

(** C8. [store] does not look at the category of the item it is given.
    Storing an item of category [NONE] into a cell that is within bounds
    and empty returns [true], puts the item there, adds its weight to the
    weight and increments the count, while the cell still reads as empty
    (its category is [NONE]) and the set of occupied cells is as before;
    so a count that was the number of occupied cells now exceeds it. *)
Theorem store_NONE_item this row col pickup c :
  cell_at row col (inventory_grid_ this) = Some c →
  Item.type_ c = NONE →
  Item.type_ pickup = NONE →
  ∃ this',
    store row col pickup this = (Returned true, this') ∧
    at_ row col this' = (Returned pickup, this') ∧
    Item.type_ pickup = NONE ∧
    weight_ this' = Float32.add (weight_ this) (Item.weight_ pickup) ∧
    item_count_ this' = SizeT.incr (item_count_ this) ∧
    occupied (inventory_grid_ this') = occupied (inventory_grid_ this) ∧
    (item_count_ this = Z.of_nat (length (occupied (inventory_grid_ this))) →
     item_count_ this + 1 < SizeT.modulus →
     item_count_ this' > Z.of_nat (length (occupied (inventory_grid_ this')))).
Proof.
  intros Hc Hnone Hp. eexists. split; [by apply (store_into_empty _ _ _ _ c)|].
  destruct (occupied_assign _ row col pickup c Hc Hnone) as [_ Hsame].
  simpl. repeat split; try done.
  - assert (cell_at row col (alter (λ r, <[col := pickup]> r) row (inventory_grid_ this))
            = Some pickup) as Hcell.
    { rewrite cell_at_assign by (by rewrite Hc). by rewrite decide_True. }
    destruct (cell_at_total row col (mkInventory _ (equipped_ this)
                (Float32.add (weight_ this) (Item.weight_ pickup))
                (SizeT.incr (item_count_ this))) pickup Hcell) as [Hv Hcl].
    unfold at_, const_method. by rewrite Hv, Hcl.
  - by apply Hsame.
  - intros Hexact Hroom. rewrite Hsame by done.
    rewrite incr_small; lia.
Qed.
End aggregates.

(** ** The special members in closed form *)

#[global] Arguments lookup_inv : simpl never.
#[global] Arguments update_inv : simpl never.
#[global] Arguments lookup_name : simpl never.
#[global] Arguments update_name : simpl never.
#[global] Arguments set_free_store : simpl never.

Ltac mem_simpl :=
  repeat first
    [ rewrite lookup_update_eq
    | rewrite lookup_update_ne by congruence
    | rewrite lookup_inv_set_free_store
    | rewrite lookup_inv_update_name
    | rewrite free_store_update_inv
    | rewrite free_store_update_name
    | rewrite free_store_set_free_store
    | rewrite lookup_name_update_inv
    | rewrite lookup_name_update_name_eq
    | rewrite lookup_name_update_name_ne by congruence
    | rewrite lookup_name_set_free_store ].

Tactic Notation "mem_simpl" "in" hyp(H) :=
  repeat first
    [ rewrite lookup_update_eq in H
    | rewrite lookup_update_ne in H by congruence
    | rewrite lookup_inv_set_free_store in H
    | rewrite lookup_inv_update_name in H
    | rewrite free_store_update_inv in H
    | rewrite free_store_update_name in H
    | rewrite free_store_set_free_store in H
    | rewrite lookup_name_update_inv in H
    | rewrite lookup_name_update_name_eq in H
    | rewrite lookup_name_update_name_ne in H by congruence
    | rewrite lookup_name_set_free_store in H ].

(** Two memories are compared reference by reference. *)
Ltac mem_ext this rhs :=
  apply Mem_ext;
  [ mem_simpl; try done
  | let r := fresh "r" in
    intros r; destruct (decide (r = this)) as [->|?];
    [|destruct (decide (r = rhs)) as [->|?]]; mem_simpl
  | let p := fresh "p" in intros p; mem_simpl; try done ].

Section monad.
Context {A B : Type}.
Implicit Types (m : Mem) (r : iref) (i : Inventory) (k : A → M B).

Lemma bind_ret (a : A) k m : bind (ret a) k m = k a m.
Proof. done. Qed.

Lemma bind_assoc {C} (c : M C) (f : C → M A) k m :
  bind (bind c f) k m = bind c (λ x, bind (f x) k) m.
Proof. unfold bind. by destruct (c m) as [[??]|]. Qed.

Lemma bind_rd r (field : Inventory → A) k m i :
  lookup_inv r m = Some i → bind (rd r field) k m = k (field i) m.
Proof. intros Hi. unfold bind, rd. by rewrite Hi. Qed.

Lemma bind_rd_None r (field : Inventory → A) k m :
  lookup_inv r m = None → bind (rd r field) k m = None.
Proof. intros Hi. unfold bind, rd. by rewrite Hi. Qed.

Lemma bind_rd_name p (k : string → M B) m n :
  lookup_name p m = Some n → bind (rd_name p) k m = k n m.
Proof. intros Hn. unfold bind, rd_name. by rewrite Hn. Qed.

Lemma bind_rd_name_None p (k : string → M B) m :
  lookup_name p m = None → bind (rd_name p) k m = None.
Proof. intros Hn. unfold bind, rd_name. by rewrite Hn. Qed.

Lemma bind_wr_name p n (k : unit → M B) m n0 :
  lookup_name p m = Some n0 →
  bind (wr_name p n) k m = k tt (update_name p n m).
Proof. intros Hn. unfold bind, wr_name. by rewrite Hn. Qed.

Lemma bind_wr {V} r (set : V → Inventory → Inventory) v (k : unit → M B) m i :
  lookup_inv r m = Some i →
  bind (wr r set v) k m = k tt (update_inv r (set v i) m).
Proof. intros Hi. unfold bind, wr. by rewrite Hi. Qed.

Lemma wr_eq {V} r (set : V → Inventory → Inventory) v m i :
  lookup_inv r m = Some i →
  wr r set v m = Some (tt, update_inv r (set v i) m).
Proof. intros Hi. unfold wr. by rewrite Hi. Qed.

Lemma bind_Some_inv (c : M A) k m b m' :
  bind c k m = Some (b, m') →
  ∃ a m1, c m = Some (a, m1) ∧ k a m1 = Some (b, m').
Proof.
  unfold bind. destruct (c m) as [[a m1]|]; [|done]. intros Hk. by exists a, m1.
Qed.

Lemma set_free_store_id m : set_free_store (free_store m) m = m.
Proof. by destruct m. Qed.

Lemma bind_delete_Item p (k : unit → M B) m :
  bind (delete_Item p) k m =
    if decide (deletable p m)
    then k tt (set_free_store (freed p (free_store m)) m)
    else None.
Proof.
  unfold bind, delete_Item. destruct p as [l|]; simpl.
  - destruct (free_store m !! l) eqn:Hl.
    + by rewrite decide_True.
    + rewrite decide_False; [done | by intros []].
  - by rewrite set_free_store_id.
Qed.
End monad.

Ltac lookup_solve :=
  mem_simpl;
  repeat match goal with H : lookup_inv _ _ = _ |- _ => rewrite H end;
  repeat match goal with H : lookup_name _ _ = _ |- _ => rewrite H end;
  simpl; reflexivity.

Ltac mstep :=
  first
    [ rewrite bind_assoc
    | rewrite bind_ret
    | erewrite bind_rd by lookup_solve
    | erewrite bind_wr by lookup_solve
    | erewrite bind_rd_name by lookup_solve
    | erewrite bind_wr_name by lookup_solve
    | erewrite wr_eq by lookup_solve ].

Section special_members.
Implicit Types (m : Mem) (this rhs : iref) (t r i : Inventory).

Lemma Inventory_eta i :
  mkInventory (inventory_grid_ i) (equipped_ i) (weight_ i) (item_count_ i) = i.
Proof. by destruct i. Qed.

Lemma update_inv_id this i m : lookup_inv this m = Some i → update_inv this i m = m.
Proof. intros Hi. mem_ext this this; by rewrite ?Hi. Qed.

Lemma discardEquipped_eq this m :
  discardEquipped this m =
    match lookup_inv this m with
    | Some t =>
        match equipped_ t with
        | Some l =>
            if decide (deletable (equipped_ t) m)
            then Some (tt, update_inv this (set_equipped_ None t)
                             (set_free_store (freed (equipped_ t) (free_store m)) m))
            else None
        | None => Some (tt, m)
        end
    | None => None
    end.
Proof.
  unfold discardEquipped.
  destruct (lookup_inv this m) as [t|] eqn:Ht; [|by apply bind_rd_None].
  mstep. destruct (equipped_ t) as [l|] eqn:He; [|done].
  rewrite bind_delete_Item. case_decide; [|done]. by mstep.
Qed.

Lemma Inventory_dtor_eq this m :
  Inventory_dtor this m =
    match lookup_inv this m with
    | Some t =>
        if decide (deletable (equipped_ t) m)
        then Some (tt, update_inv this (set_equipped_ None t)
                         (set_free_store (freed (equipped_ t) (free_store m)) m))
        else None
    | None => None
    end.
Proof.
  unfold Inventory_dtor.
  destruct (lookup_inv this m) as [t|] eqn:Ht; [|by apply bind_rd_None].
  mstep. rewrite bind_delete_Item. case_decide; [|done]. by mstep.
Qed.

Lemma clone_equipped_eq rhs m :
  clone_equipped rhs m =
    match lookup_inv rhs m with
    | Some r =>
        match cloned (equipped_ r) (free_store m) with
        | Some (e, h) => Some (e, set_free_store h m)
        | None => None
        end
    | None => None
    end.
Proof.
  unfold clone_equipped, bind, rd, deref, new_Item, ret, cloned.
  destruct (lookup_inv rhs m) as [r|]; [|done].
  destruct (equipped_ r) as [l|]; [|by rewrite set_free_store_id].
  by destruct (free_store m !! l).
Qed.

Lemma bind_clone_equipped {B} rhs (k : ptr → M B) m (r : Inventory) :
  lookup_inv rhs m = Some r →
  bind (clone_equipped rhs) k m =
    match cloned (equipped_ r) (free_store m) with
    | Some (e, h) => k e (set_free_store h m)
    | None => None
    end.
Proof.
  intros Hr. unfold bind at 1. rewrite clone_equipped_eq, Hr.
  by destruct (cloned _ _) as [[??]|].
Qed.

Lemma Inventory_copy_ctor_eq rhs m :
  Inventory_copy_ctor rhs m =
    match lookup_inv rhs m with
    | Some r =>
        match cloned (equipped_ r) (free_store m) with
        | Some (e, h) => Some (set_equipped_ e r, set_free_store h m)
        | None => None
        end
    | None => None
    end.
Proof.
  unfold Inventory_copy_ctor.
  destruct (lookup_inv rhs m) as [r|] eqn:Hr; [|by apply bind_rd_None].
  do 3 mstep. erewrite bind_clone_equipped by done.
  by destruct (cloned _ _) as [[??]|].
Qed.

Lemma Inventory_move_ctor_eq rhs m :
  Inventory_move_ctor rhs m =
    match lookup_inv rhs m with
    | Some r => Some (r, update_inv rhs moved_from m)
    | None => None
    end.
Proof.
  unfold Inventory_move_ctor, move_inventory_grid_.
  destruct (lookup_inv rhs m) as [r|] eqn:Hr.
  2: { rewrite bind_assoc. by apply bind_rd_None. }
  repeat mstep. unfold ret. simpl. rewrite Inventory_eta.
  do 2 f_equal. mem_ext rhs rhs; by rewrite ?Hr.
Qed.

Lemma Inventory_copy_assign_eq this rhs m :
  this ≠ rhs →
  Inventory_copy_assign this rhs m =
    match lookup_inv this m, lookup_inv rhs m with
    | Some t, Some r =>
        if decide (deletable (equipped_ t) m) then
          match cloned (equipped_ r) (freed (equipped_ t) (free_store m)) with
          | Some (e, h) =>
              Some (tt, update_inv this (set_equipped_ e r) (set_free_store h m))
          | None => None
          end
        else None
    | _, _ => None
    end.
Proof.
  intros Hne. unfold Inventory_copy_assign. rewrite decide_True by done.
  destruct (lookup_inv this m) as [t|] eqn:Ht; [|by apply bind_rd_None].
  mstep. rewrite bind_delete_Item.
  destruct (lookup_inv rhs m) as [r|] eqn:Hr.
  2: { case_decide; [|done]. apply bind_rd_None. by mem_simpl. }
  case_decide; [|done]. do 6 mstep.
  erewrite bind_clone_equipped by lookup_solve. mem_simpl.
  destruct (cloned _ _) as [[e h]|]; [|done].
  mstep. do 2 f_equal. simpl.
  mem_ext this rhs; rewrite ?Ht, ?Hr; simpl; done.
Qed.

Lemma Inventory_move_assign_eq this rhs m :
  this ≠ rhs →
  Inventory_move_assign this rhs m =
    match lookup_inv this m, lookup_inv rhs m with
    | Some t, Some r =>
        if decide (deletable (equipped_ t) m) then
          Some (tt, update_inv rhs moved_from
                      (update_inv this r
                         (set_free_store (freed (equipped_ t) (free_store m)) m)))
        else None
    | _, _ => None
    end.
Proof.
  intros Hne. unfold Inventory_move_assign, move_inventory_grid_.
  rewrite decide_True by done.
  destruct (lookup_inv this m) as [t|] eqn:Ht; [|by apply bind_rd_None].
  mstep. rewrite bind_delete_Item.
  destruct (lookup_inv rhs m) as [r|] eqn:Hr.
  2: { case_decide; [|done]. rewrite bind_assoc. apply bind_rd_None. by mem_simpl. }
  case_decide; [|done]. repeat mstep.
  do 2 f_equal. simpl.
  mem_ext this rhs; rewrite ?Ht, ?Hr; simpl; try done.
  by destruct r.
Qed.
End special_members.

Section player_members.
Implicit Types (m : Mem) (this rhs p : loc) (pl : Player).

Lemma players_lookup_Some p m pl :
  players m !! p = Some pl →
  lookup_name p m = Some (name_ pl) ∧
  lookup_inv (inventory_of p) m = Some (inventory_ pl).
Proof. intros Hp. unfold lookup_name, lookup_inv. by rewrite Hp. Qed.

Lemma players_lookup_None p m :
  players m !! p = None →
  lookup_name p m = None ∧ lookup_inv (inventory_of p) m = None.
Proof. intros Hp. unfold lookup_name, lookup_inv. by rewrite Hp. Qed.

Lemma players_lookup p m n i :
  lookup_name p m = Some n →
  lookup_inv (inventory_of p) m = Some i →
  players m !! p = Some (mkPlayer n i).
Proof.
  unfold lookup_name, lookup_inv.
  destruct (players m !! p) as [[n' i']|]; simpl; congruence.
Qed.

Lemma Player_ctor_eq name inventory m :
  Player_ctor name inventory m =
    match lookup_inv inventory m with
    | Some r =>
        match cloned (equipped_ r) (free_store m) with
        | Some (e, h) => Some (mkPlayer name (set_equipped_ e r), set_free_store h m)
        | None => None
        end
    | None => None
    end.
Proof.
  unfold Player_ctor, bind. rewrite Inventory_copy_ctor_eq.
  destruct (lookup_inv inventory m) as [r|]; [|done].
  by destruct (cloned _ _) as [[??]|].
Qed.

Lemma Player_copy_ctor_eq rhs m :
  Player_copy_ctor rhs m =
    match players m !! rhs with
    | Some pr =>
        match cloned (equipped_ (inventory_ pr)) (free_store m) with
        | Some (e, h) =>
            Some (mkPlayer (name_ pr) (set_equipped_ e (inventory_ pr)),
                  set_free_store h m)
        | None => None
        end
    | None => None
    end.
Proof.
  unfold Player_copy_ctor.
  destruct (players m !! rhs) as [pr|] eqn:Hp.
  - destruct (players_lookup_Some _ _ _ Hp) as [Hn Hi].
    mstep. unfold bind. rewrite Inventory_copy_ctor_eq, Hi.
    by destruct (cloned _ _) as [[??]|].
  - destruct (players_lookup_None _ _ Hp) as [Hn Hi]. by apply bind_rd_name_None.
Qed.

Lemma Player_move_ctor_eq remains rhs m :
  Player_move_ctor remains rhs m =
    match players m !! rhs with
    | Some pr =>
        Some (pr, update_inv (inventory_of rhs) moved_from (update_name rhs remains m))
    | None => None
    end.
Proof.
  unfold Player_move_ctor, move_name_.
  destruct (players m !! rhs) as [pr|] eqn:Hp.
  - destruct (players_lookup_Some _ _ _ Hp) as [Hn Hi].
    repeat mstep. unfold bind. rewrite Inventory_move_ctor_eq.
    mem_simpl. rewrite Hi. unfold ret. by destruct pr.
  - destruct (players_lookup_None _ _ Hp) as [Hn Hi].
    rewrite bind_assoc. by apply bind_rd_name_None.
Qed.

Lemma Player_copy_assign_eq this rhs m :
  this ≠ rhs →
  Player_copy_assign this rhs m =
    match players m !! this, players m !! rhs with
    | Some pt, Some pr =>
        if decide (deletable (equipped_ (inventory_ pt)) m) then
          match cloned (equipped_ (inventory_ pr))
                  (freed (equipped_ (inventory_ pt)) (free_store m)) with
          | Some (e, h) =>
              Some (tt, update_inv (inventory_of this) (set_equipped_ e (inventory_ pr))
                          (update_name this (name_ pr) (set_free_store h m)))
          | None => None
          end
        else None
    | _, _ => None
    end.
Proof.
  intros Hne. unfold Player_copy_assign. rewrite decide_True by done.
  destruct (players m !! rhs) as [pr|] eqn:Hpr.
  2: { destruct (players_lookup_None _ _ Hpr) as [Hn Hi].
       rewrite bind_rd_name_None by done. by destruct (players m !! this). }
  destruct (players_lookup_Some _ _ _ Hpr) as [Hnr Hir].
  mstep.
  destruct (players m !! this) as [pt|] eqn:Hpt.
  2: { destruct (players_lookup_None _ _ Hpt) as [Hn Hi].
       unfold bind, wr_name. by rewrite Hn. }
  destruct (players_lookup_Some _ _ _ Hpt) as [Hnt Hit].
  mstep. rewrite Inventory_copy_assign_eq by congruence.
  mem_simpl. rewrite Hit, Hir.
  case_decide as Hd.
  - rewrite decide_True by done.
    by destruct (cloned _ _) as [[e h]|].
  - by rewrite decide_False.
Qed.

Lemma Player_move_assign_eq remains this rhs m :
  this ≠ rhs →
  Player_move_assign remains this rhs m =
    match players m !! this, players m !! rhs with
    | Some pt, Some pr =>
        if decide (deletable (equipped_ (inventory_ pt)) m) then
          Some (tt, update_inv (inventory_of rhs) moved_from
                      (update_name rhs remains
                         (update_inv (inventory_of this) (inventory_ pr)
                            (update_name this (name_ pr)
                               (set_free_store
                                  (freed (equipped_ (inventory_ pt)) (free_store m)) m)))))
        else None
    | _, _ => None
    end.
Proof.
  intros Hne. unfold Player_move_assign, move_name_. rewrite decide_True by done.
  destruct (players m !! rhs) as [pr|] eqn:Hpr.
  2: { destruct (players_lookup_None _ _ Hpr) as [Hn Hi].
       rewrite bind_assoc, bind_rd_name_None by done. by destruct (players m !! this). }
  destruct (players_lookup_Some _ _ _ Hpr) as [Hnr Hir].
  repeat mstep.
  destruct (players m !! this) as [pt|] eqn:Hpt.
  2: { destruct (players_lookup_None _ _ Hpt) as [Hn Hi].
       unfold bind, wr_name. mem_simpl. by rewrite Hn. }
  destruct (players_lookup_Some _ _ _ Hpt) as [Hnt Hit].
  mstep. rewrite Inventory_move_assign_eq by congruence.
  mem_simpl. rewrite Hit, Hir.
  case_decide as Hd.
  - rewrite decide_True by done. do 2 f_equal.
    apply Mem_ext; [by mem_simpl | intros r | intros p].
    + destruct (decide (r = inventory_of rhs)) as [->|?];
        [|destruct (decide (r = inventory_of this)) as [->|?]]; by mem_simpl.
    + destruct (decide (p = rhs)) as [->|?];
        [|destruct (decide (p = this)) as [->|?]]; by mem_simpl.
  - by rewrite decide_False.
Qed.
End player_members.

(** ** The equipped item: [equip] and [discardEquipped] *)

Section equipped.
Implicit Types (m : Mem) (this r : iref) (t : Inventory) (newItem : ptr).

Lemma call_eq {A} this (f : Method A) m :
  call this f m =
    match lookup_inv this m with
    | Some t => Some ((f t).1, update_inv this (f t).2 m)
    | None => None
    end.
Proof. done. Qed.

(** C7. [equip(newItem)] makes [newItem] the equipped pointer and does
    nothing else: the free store is as before, so the item equipped
    until then is neither released nor changed, and the grid, the weight
    and the count of the Inventory (and every other object) are as
    before. *)
Theorem equip_rebinds this m t newItem :
  lookup_inv this m = Some t →
  ∃ m' t',
    call this (equip newItem) m = Some (Returned tt, m') ∧
    lookup_inv this m' = Some t' ∧
    equipped_ t' = newItem ∧
    free_store m' = free_store m ∧
    pointee (equipped_ t) m' = pointee (equipped_ t) m ∧
    inventory_grid_ t' = inventory_grid_ t ∧
    weight_ t' = weight_ t ∧
    item_count_ t' = item_count_ t ∧
    (∀ r, r ≠ this → lookup_inv r m' = lookup_inv r m).
Proof.
  intros Ht. eexists _, _. rewrite call_eq, Ht. simpl.
  split; [done|]. split; [by mem_simpl; rewrite Ht|].
  unfold pointee. mem_simpl. repeat split; try done.
  intros r Hr. by mem_simpl.
Qed.

(** C9. On an Inventory with no equipped item [discardEquipped] changes
    nothing at all, and calling it twice in a row has the outcome of
    calling it once.  When the equipped pointer may be deleted (it is
    null or live) the first call is defined, leaves the pointer null and
    the item released, and the second call then changes nothing. *)
Theorem discardEquipped_twice this m t :
  lookup_inv this m = Some t →
  (equipped_ t = None → discardEquipped this m = Some (tt, m)) ∧
  (discardEquipped this;; discardEquipped this) m = discardEquipped this m ∧
  (deletable (equipped_ t) m →
     ∃ m', discardEquipped this m = Some (tt, m') ∧
           lookup_inv this m' = Some (set_equipped_ None t) ∧
           free_store m' = freed (equipped_ t) (free_store m) ∧
           discardEquipped this m' = Some (tt, m')).
Proof.
  intros Ht.
  assert (∀ m', lookup_inv this m' = Some (set_equipped_ None t) →
                discardEquipped this m' = Some (tt, m')) as Hnull.
  { intros m' Hm'. by rewrite discardEquipped_eq, Hm'. }
  split; [|split].
  - intros He. by rewrite discardEquipped_eq, Ht, He.
  - unfold bind. rewrite (discardEquipped_eq this m), Ht.
    destruct (equipped_ t) as [l|] eqn:He.
    + case_decide; [|done]. apply Hnull. mem_simpl. by rewrite Ht.
    + by rewrite discardEquipped_eq, Ht, He.
  - intros Hd. rewrite discardEquipped_eq, Ht.
    destruct (equipped_ t) as [l|] eqn:He.
    + rewrite decide_True by done. eexists. split; [done|].
      assert (lookup_inv this
                (update_inv this (set_equipped_ None t)
                   (set_free_store (freed (Some l) (free_store m)) m)) =
              Some (set_equipped_ None t)) as Hm' by (mem_simpl; by rewrite Ht).
      split; [done|]. split; [by mem_simpl|]. by apply Hnull.
    + exists m. repeat split; try done.
      * rewrite Ht. f_equal. destruct t. simpl in *. by subst.
      * by rewrite discardEquipped_eq, Ht, He.
Qed.
End equipped.

(** ** Moving *)

Section moving.
Implicit Types (m : Mem) (this rhs : iref) (t r : Inventory).

(** The moved-from state is a usable Inventory: every index is out of
    range, its aggregates are right, and its equipped pointer is null. *)
Lemma moved_from_usable row col pickup :
  at_ row col moved_from = (Threw (out_of_range "Invalid inventory index."), moved_from) ∧
  store row col pickup moved_from =
    (Threw (out_of_range "Invalid inventory index."), moved_from) ∧
  aggregates_ok moved_from ∧
  equipped_ moved_from = None.
Proof.
  assert (invalid_index row col moved_from = true) as Hinv.
  { apply invalid_index_true. left. simpl. lia. }
  unfold at_, store, const_method. rewrite Hinv.
  repeat split; try done; apply moved_from_aggregates.
Qed.

(** A moved-from Inventory in memory can be discarded from, destroyed,
    equipped and copied without undefined behaviour. *)
Lemma moved_from_defined rhs m :
  lookup_inv rhs m = Some moved_from →
  discardEquipped rhs m = Some (tt, m) ∧
  Inventory_copy_ctor rhs m = Some (moved_from, m) ∧
  is_Some (Inventory_dtor rhs m) ∧
  (∀ p, is_Some (call rhs (equip p) m)).
Proof.
  intros Hr. split; [|split; [|split]].
  - by rewrite discardEquipped_eq, Hr.
  - rewrite Inventory_copy_ctor_eq, Hr. simpl. by rewrite set_free_store_id.
  - rewrite Inventory_dtor_eq, Hr. by rewrite decide_True.
  - intros p. by rewrite call_eq, Hr.
Qed.

(** Move assignment of an object to itself does nothing. *)
Lemma Inventory_move_assign_self this m :
  Inventory_move_assign this this m = Some (tt, m).
Proof. unfold Inventory_move_assign. by rewrite decide_False by (by intros []). Qed.

(** Whenever move assignment between two different objects is defined, it
    hands over the state and empties the source. *)
Lemma move_assign_distinct this rhs m :
  this ≠ rhs → move_assign_empties_source this rhs m.
Proof.
  intros Hne r m' Hr Hexec.
  rewrite Inventory_move_assign_eq, Hr in Hexec by done.
  destruct (lookup_inv this m) as [t|] eqn:Ht; [|done].
  case_decide; [|done]. injection Hexec as <-.
  mem_simpl. by rewrite Ht, Hr.
Qed.

Lemma Player_move_assign_self remains p m :
  Player_move_assign remains p p m = Some (tt, m).
Proof. unfold Player_move_assign. by rewrite decide_False by (by intros []). Qed.

(** Whenever move assignment between two different Players is defined, it
    hands over name and inventory; the source keeps what the library
    leaves in its name. *)
Lemma Player_move_assign_distinct (this rhs : loc) m :
  this ≠ rhs → Player_move_assign_hands_over this rhs m.
Proof.
  intros Hne remains pr m' Hpr Hexec.
  rewrite Player_move_assign_eq, Hpr in Hexec by done.
  destruct (players m !! this) as [pt|] eqn:Hpt; [|done].
  case_decide; [|done]. injection Hexec as <-.
  destruct (players_lookup_Some _ _ _ Hpr) as [Hnr Hir].
  destruct (players_lookup_Some _ _ _ Hpt) as [Hnt Hit].
  split.
  - replace pr with (mkPlayer (name_ pr) (inventory_ pr)) at 3 by (by destruct pr).
    apply players_lookup; mem_simpl; by rewrite ?Hnt, ?Hit.
  - apply players_lookup; mem_simpl; by rewrite ?Hnr, ?Hir.
Qed.

End moving.

(** ** Copying *)

Section copying.
Implicit Types (m : Mem) (this rhs a b : iref) (t r i : Inventory) (l : loc).

Lemma place_Inventory_eq i m :
  ∃ k : loc, lookup_inv (InvObj k) m = None ∧
       place_Inventory i m =
         Some (InvObj k,
               mkMem (free_store m) (<[k := i]> (inventories m)) (players m)).
Proof.
  exists (fresh (dom (inventories m))). split; [|done].
  unfold lookup_inv. apply not_elem_of_dom, is_fresh.
Qed.

Lemma lookup_inv_placed (k : loc) i m this :
  lookup_inv this (mkMem (free_store m) (<[k := i]> (inventories m)) (players m)) =
    if decide (this = InvObj k) then Some i else lookup_inv this m.
Proof.
  destruct (decide (this = InvObj k)) as [->|Hne]; unfold lookup_inv; simpl.
  - apply lookup_insert_eq.
  - destruct this as [k'|p]; [|done]. apply lookup_insert_ne. congruence.
Qed.

Lemma independent_of_intro a b m ia ib la va :
  a ≠ b →
  lookup_inv a m = Some ia →
  lookup_inv b m = Some ib →
  equipped_ ia = Some la →
  free_store m !! la = Some va →
  equipped_ ib ≠ Some la →
  independent_of a b m.
Proof.
  intros Hne Ha Hb Hea Hla Hdiff. split.
  - intros v. unfold mutate_equipped, bind. rewrite call_eq, Ha. simpl.
    rewrite Hea. unfold assign_Item. mem_simpl. rewrite Hla.
    eexists. split; [done|]. unfold equipped_item, pointee. mem_simpl.
    rewrite Hb. simpl. do 2 f_equal.
    destruct (equipped_ ib) as [lb|]; [simpl|done]. mem_simpl.
    apply lookup_insert_ne. congruence.
  - rewrite discardEquipped_eq, Ha, Hea, decide_True by (by simpl; rewrite Hla).
    eexists. split; [done|]. unfold equipped_item, pointee. mem_simpl.
    rewrite Hb. simpl. do 2 f_equal.
    destruct (equipped_ ib) as [lb|]; [simpl|done]. mem_simpl.
    apply lookup_delete_ne. congruence.
Qed.

Lemma equipped_copied_intro copy orig m r l l' v :
  copy ≠ orig →
  lookup_inv copy m = Some (set_equipped_ (Some l') r) →
  lookup_inv orig m = Some r →
  equipped_ r = Some l →
  l' ≠ l →
  free_store m !! l' = Some v →
  free_store m !! l = Some v →
  equipped_copied copy orig v m.
Proof.
  intros Hne Hcopy Horig He Hl' Hv' Hv. split; [|split].
  - eexists _, _. split; [done|]. split; [done|]. rewrite He. simpl.
    split; [congruence|]. unfold pointee. simpl. by rewrite Hv', Hv.
  - eapply independent_of_intro; try done. rewrite He. congruence.
  - eapply independent_of_intro; try done. simpl. congruence.
Qed.

Lemma cloned_live l h v :
  h !! l = Some v →
  ∃ l', cloned (Some l) h = Some (Some l', <[l' := v]> h) ∧ l' ≠ l ∧ h !! l' = None.
Proof.
  intros Hl. exists (fresh (dom h)). unfold cloned. rewrite Hl.
  assert (h !! fresh (dom h) = None) as Hfresh by apply not_elem_of_dom, is_fresh.
  split; [done|]. split; [|done]. intros Heq. rewrite Heq in Hfresh. congruence.
Qed.

Lemma set_equipped_restore r e e' :
  equipped_ r = e → set_equipped_ e (set_equipped_ e' r) = r.
Proof. intros <-. by destruct r. Qed.

(** Copy assignment of an object to itself does nothing. *)
Lemma Inventory_copy_assign_self this m :
  Inventory_copy_assign this this m = Some (tt, m).
Proof. unfold Inventory_copy_assign. by rewrite decide_False by (by intros []). Qed.

(** Whenever copy assignment between two different objects is defined, it
    leaves them with independent equipped items. *)
Lemma copy_assign_distinct this rhs m :
  this ≠ rhs → copy_assign_makes_independent this rhs m.
Proof.
  intros Hne r l v m' Hr He Hl Hexec.
  rewrite Inventory_copy_assign_eq, Hr in Hexec by done.
  destruct (lookup_inv this m) as [t|] eqn:Ht; [|done].
  case_decide; [|done]. rewrite He in Hexec. unfold cloned in Hexec.
  destruct (freed (equipped_ t) (free_store m) !! l) as [v'|] eqn:Hl'; [|done].
  assert (v' = v) as ->.
  { destruct (equipped_ t) as [lt|]; simpl in Hl'; [|congruence].
    apply lookup_delete_Some in Hl' as [_ Hl']. congruence. }
  injection Hexec as <-.
  set (l' := fresh (dom (freed (equipped_ t) (free_store m)))).
  assert (freed (equipped_ t) (free_store m) !! l' = None) as Hfresh
    by apply not_elem_of_dom, is_fresh.
  assert (equipped_copied this rhs v
            (update_inv this (set_equipped_ (Some l') r)
               (set_free_store (<[l' := v]> (freed (equipped_ t) (free_store m))) m)))
    as (_ & H1 & H2); [|done].
  assert (l' ≠ l) as Hl'l by congruence.
  apply (equipped_copied_intro _ _ _ r l l'); mem_simpl; try done.
  - by rewrite Ht.
  - apply lookup_insert_eq.
  - by rewrite lookup_insert_ne.
Qed.

(** C6. Copying an Inventory whose equipped item is live, by copy
    construction or by copy assignment into another Inventory, yields two
    Inventories whose equipped items are equal in value behind different
    pointers; assigning through the pointer of either, or having either
    discard its item, is defined and leaves the pointer and the item of
    the other as they were.  The copy also has the source's grid, weight
    and count.  This holds of copy construction always and of copy
    assignment whenever it is defined; it is defined when the
    destination's own equipped pointer is null or live and is not the
    source's, as is the case under exclusive ownership. *)
Theorem Inventory_copy_independent rhs m r l v :
  lookup_inv rhs m = Some r →
  equipped_ r = Some l →
  free_store m !! l = Some v →
  (∃ i m1 this m',
     Inventory_copy_ctor rhs m = Some (i, m1) ∧
     place_Inventory i m1 = Some (this, m') ∧
     this ≠ rhs ∧
     set_equipped_ (equipped_ r) i = r ∧
     lookup_inv this m' = Some i ∧
     lookup_inv rhs m' = Some r ∧
     equipped_copied this rhs v m') ∧
  (∀ this m',
     this ≠ rhs →
     Inventory_copy_assign this rhs m = Some (tt, m') →
     ∃ i,
       set_equipped_ (equipped_ r) i = r ∧
       lookup_inv this m' = Some i ∧
       lookup_inv rhs m' = Some r ∧
       equipped_copied this rhs v m') ∧
  (∀ this t,
     this ≠ rhs →
     lookup_inv this m = Some t →
     deletable (equipped_ t) m →
     equipped_ t ≠ Some l →
     ∃ i m',
       Inventory_copy_assign this rhs m = Some (tt, m') ∧
       set_equipped_ (equipped_ r) i = r ∧
       lookup_inv this m' = Some i ∧
       lookup_inv rhs m' = Some r ∧
       equipped_copied this rhs v m').
Proof.
  intros Hr He Hl.
  assert (∀ this t,
            this ≠ rhs →
            lookup_inv this m = Some t →
            deletable (equipped_ t) m →
            equipped_ t ≠ Some l →
            ∃ i m',
              Inventory_copy_assign this rhs m = Some (tt, m') ∧
              set_equipped_ (equipped_ r) i = r ∧
              lookup_inv this m' = Some i ∧
              lookup_inv rhs m' = Some r ∧
              equipped_copied this rhs v m') as Hassign.
  { intros this t Hne Ht Hd Halias.
    rewrite Inventory_copy_assign_eq, Ht, Hr, decide_True, He by done.
    assert (freed (equipped_ t) (free_store m) !! l = Some v) as Hl'.
    { destruct (equipped_ t) as [lt|]; simpl; [|done].
      rewrite lookup_delete_ne; [done | congruence]. }
    destruct (cloned_live l _ v Hl') as (l' & -> & Hne' & Hfresh).
    set (m' := update_inv _ _ _).
    assert (lookup_inv this m' = Some (set_equipped_ (Some l') r)) as Hthis'.
    { subst m'. mem_simpl. by rewrite Ht. }
    assert (lookup_inv rhs m' = Some r) as Hrhs'.
    { subst m'. by mem_simpl. }
    assert (free_store m' = <[l' := v]> (freed (equipped_ t) (free_store m))) as Hfs.
    { subst m'. by mem_simpl. }
    clearbody m'.
    exists (set_equipped_ (Some l') r), m'. split; [done|].
    split; [by apply set_equipped_restore|].
    split; [done|]. split; [done|].
    apply (equipped_copied_intro _ _ _ r l l'); try done.
    + by rewrite Hfs, lookup_insert_eq.
    + by rewrite Hfs, lookup_insert_ne. }
  split; [|split; [|exact Hassign]].
  - rewrite Inventory_copy_ctor_eq, Hr, He.
    destruct (cloned_live l _ v Hl) as (l' & -> & Hne & Hfresh).
    set (m1 := set_free_store _ m).
    destruct (place_Inventory_eq (set_equipped_ (Some l') r) m1) as (k & Ha & Hplace).
    assert (InvObj k ≠ rhs) as Hthis.
    { intros <-. subst m1. mem_simpl in Ha. congruence. }
    set (m' := mkMem _ _ _) in Hplace.
    assert (lookup_inv (InvObj k) m' = Some (set_equipped_ (Some l') r)) as Hthis'.
    { subst m'. by rewrite lookup_inv_placed, decide_True. }
    assert (lookup_inv rhs m' = Some r) as Hrhs'.
    { subst m'. rewrite lookup_inv_placed, decide_False by done.
      subst m1. mem_simpl. done. }
    assert (free_store m' = <[l' := v]> (free_store m)) as Hfs by done.
    clearbody m'.
    eexists _, _, _, _. split; [done|]. split; [done|].
    split; [done|]. split; [by apply set_equipped_restore|].
    split; [done|]. split; [done|].
    apply (equipped_copied_intro _ _ _ r l l'); try done.
    + by rewrite Hfs, lookup_insert_eq.
    + by rewrite Hfs, lookup_insert_ne.
  - intros this m' Hne Hexec.
    assert (∃ t, lookup_inv this m = Some t ∧ deletable (equipped_ t) m ∧
                 equipped_ t ≠ Some l) as (t & Ht & Hd & Halias).
    { pose proof Hexec as Hexec'.
      rewrite Inventory_copy_assign_eq, Hr in Hexec' by done.
      destruct (lookup_inv this m) as [t|]; [|done].
      case_decide as Hd; [|done]. exists t. split; [done|]. split; [done|].
      intros Het. rewrite He, Het in Hexec'. simpl in Hexec'.
      by rewrite lookup_delete_eq in Hexec'. }
    destruct (Hassign this t Hne Ht Hd Halias) as (i & m'' & Hexec' & H).
    rewrite Hexec in Hexec'. injection Hexec' as <-. by exists i.
Qed.
End copying.

(** ** The aggregates of every reachable Inventory *)

Section invariant.
Implicit Types (m : Mem) (this rhs : iref) (i : Inventory).

Lemma aggregates_ok_set_equipped_ e i :
  aggregates_ok i → aggregates_ok (set_equipped_ e i).
Proof. done. Qed.

Lemma all_ok_empty : all_ok empty_mem.
Proof. intros [a|p] i; unfold lookup_inv; simpl; by rewrite lookup_empty. Qed.

Lemma all_ok_update this i m :
  aggregates_ok i → all_ok m → all_ok (update_inv this i m).
Proof.
  intros Hi Hm r j Hj. destruct (decide (r = this)) as [->|Hne].
  - mem_simpl in Hj. destruct (lookup_inv this m); simpl in Hj; congruence.
  - mem_simpl in Hj. by eapply Hm.
Qed.

Lemma all_ok_set_free_store h m : all_ok m → all_ok (set_free_store h m).
Proof. intros Hm r j Hj. mem_simpl in Hj. by eapply Hm. Qed.

Lemma all_ok_update_name p n m : all_ok m → all_ok (update_name p n m).
Proof. intros Hm r j Hj. mem_simpl in Hj. by eapply Hm. Qed.

Lemma all_ok_place_Inventory i m this m' :
  aggregates_ok i → all_ok m →
  place_Inventory i m = Some (this, m') → all_ok m'.
Proof.
  intros Hi Hm Hplace. destruct (place_Inventory_eq i m) as (k & _ & Heq).
  rewrite Heq in Hplace. injection Hplace as _ <-.
  intros r j Hj. rewrite lookup_inv_placed in Hj. case_decide.
  - congruence.
  - by eapply Hm.
Qed.

Lemma all_ok_place_Player pl m p m' :
  aggregates_ok (inventory_ pl) → all_ok m →
  place_Player pl m = Some (p, m') → all_ok m'.
Proof.
  intros Hi Hm Hplace. unfold place_Player in Hplace. injection Hplace as _ <-.
  intros [a|q] j Hj; unfold lookup_inv in Hj; simpl in Hj.
  - by apply (Hm (InvObj a)).
  - destruct (decide (q = fresh (dom (players m)))) as [->|Hne].
    + rewrite lookup_insert_eq in Hj. simpl in Hj. congruence.
    + rewrite lookup_insert_ne in Hj by done. by apply (Hm (inventory_of q)).
Qed.

Lemma all_ok_dtor this m m' :
  all_ok m → Inventory_dtor this m = Some (tt, m') → all_ok m'.
Proof.
  intros Hm. rewrite Inventory_dtor_eq.
  destruct (lookup_inv this m) as [t|] eqn:Ht; [|done].
  case_decide; [|done]. intros [= <-].
  apply all_ok_update; [|by apply all_ok_set_free_store].
  apply aggregates_ok_set_equipped_. eauto.
Qed.

Lemma all_ok_remove_Inventory (a : loc) m :
  all_ok m → all_ok (mkMem (free_store m) (delete a (inventories m)) (players m)).
Proof.
  intros Hm [k|p] j Hj; unfold lookup_inv in Hj; simpl in Hj.
  - apply lookup_delete_Some in Hj as [_ Hj]. by apply (Hm (InvObj k)).
  - by apply (Hm (inventory_of p)).
Qed.

Lemma all_ok_remove_Player (p : loc) m :
  all_ok m → all_ok (mkMem (free_store m) (inventories m) (delete p (players m))).
Proof.
  intros Hm [k|q] j Hj; unfold lookup_inv in Hj; simpl in Hj.
  - by apply (Hm (InvObj k)).
  - destruct (decide (p = q)) as [->|Hne].
    + by rewrite lookup_delete_eq in Hj.
    + rewrite lookup_delete_ne in Hj by done. by apply (Hm (inventory_of q)).
Qed.

#[local] Hint Resolve all_ok_update all_ok_set_free_store all_ok_update_name
  aggregates_ok_set_equipped_ moved_from_aggregates : inv.

Lemma all_ok_copy_ctor rhs m i m1 :
  all_ok m → Inventory_copy_ctor rhs m = Some (i, m1) →
  aggregates_ok i ∧ all_ok m1.
Proof.
  intros Hm. rewrite Inventory_copy_ctor_eq.
  destruct (lookup_inv rhs m) as [r|] eqn:Hr; [|done].
  destruct (cloned _ _) as [[e h]|]; [|done].
  intros [= <- <-]. split; [apply aggregates_ok_set_equipped_|]; eauto with inv.
Qed.

Lemma all_ok_move_ctor rhs m i m1 :
  all_ok m → Inventory_move_ctor rhs m = Some (i, m1) →
  aggregates_ok i ∧ all_ok m1.
Proof.
  intros Hm. rewrite Inventory_move_ctor_eq.
  destruct (lookup_inv rhs m) as [r|] eqn:Hr; [|done].
  intros [= <- <-]. split; eauto with inv.
Qed.

Lemma all_ok_copy_assign this rhs m m' :
  all_ok m → Inventory_copy_assign this rhs m = Some (tt, m') → all_ok m'.
Proof.
  intros Hm. destruct (decide (this = rhs)) as [->|Hne].
  { rewrite Inventory_copy_assign_self. by intros [= <-]. }
  rewrite Inventory_copy_assign_eq by done.
  destruct (lookup_inv this m) as [t|] eqn:Ht; [|done].
  destruct (lookup_inv rhs m) as [r|] eqn:Hr; [|done].
  case_decide; [|done]. destruct (cloned _ _) as [[e h]|]; [|done].
  intros [= <-]. apply all_ok_update; [|eauto with inv].
  apply aggregates_ok_set_equipped_. eauto.
Qed.

Lemma all_ok_move_assign this rhs m m' :
  all_ok m → Inventory_move_assign this rhs m = Some (tt, m') → all_ok m'.
Proof.
  intros Hm. destruct (decide (this = rhs)) as [->|Hne].
  { rewrite Inventory_move_assign_self. by intros [= <-]. }
  rewrite Inventory_move_assign_eq by done.
  destruct (lookup_inv this m) as [t|] eqn:Ht; [|done].
  destruct (lookup_inv rhs m) as [r|] eqn:Hr; [|done].
  case_decide; [|done]. intros [= <-]. eauto 6 with inv.
Qed.

Lemma all_ok_player m p pl :
  all_ok m → players m !! p = Some pl → aggregates_ok (inventory_ pl).
Proof.
  intros Hm Hp. apply (Hm (inventory_of p)). by apply players_lookup_Some.
Qed.

(** A step that stores only occupied items keeps all aggregates right. *)
Lemma step_all_ok (permitted : op → Mem → Prop) m m' :
  (∀ o m, permitted o m → stores_occupied o m) →
  step permitted m m' → all_ok m → all_ok m'.
Proof.
  intros Hpermitted (o & Hperm & Hexec) Hm. apply Hpermitted in Hperm.
  destruct o as
    [ v | p v | p | items equipped | r row col | r row col pickup | r p | r
    | rhs | rhs | this rhs | this rhs | a
    | name inventory | rhs | remains rhs | this rhs | remains this rhs | p ];
    simpl in Hexec, Hperm.
  - apply bind_Some_inv in Hexec as (p & m1 & Hop & [= <-]).
    unfold new_Item in Hop. injection Hop as _ <-. eauto with inv.
  - unfold assign_Item in Hexec. destruct p as [l|]; [|done].
    destruct (free_store m !! l); [|done]. injection Hexec as <-. eauto with inv.
  - unfold delete_Item in Hexec. destruct p as [l|]; [|by injection Hexec as <-].
    destruct (free_store m !! l); [|done]. injection Hexec as <-. eauto with inv.
  - apply bind_Some_inv in Hexec as (r & m1 & Hop & [= <-]).
    eapply all_ok_place_Inventory; [apply Inventory_ctor_aggregates | done..].
  - apply bind_Some_inv in Hexec as (res & m1 & Hop & [= <-]).
    rewrite call_eq in Hop. destruct (lookup_inv r m) as [t|] eqn:Ht; [|done].
    injection Hop as _ <-. apply all_ok_update; [|done]. simpl. eauto.
  - apply bind_Some_inv in Hexec as (res & m1 & Hop & [= <-]).
    rewrite call_eq in Hop. destruct (lookup_inv r m) as [t|] eqn:Ht; [|done].
    injection Hop as _ <-. apply all_ok_update; [|done].
    apply store_aggregates; eauto.
  - apply bind_Some_inv in Hexec as (res & m1 & Hop & [= <-]).
    rewrite call_eq in Hop. destruct (lookup_inv r m) as [t|] eqn:Ht; [|done].
    injection Hop as _ <-. apply all_ok_update; [|done].
    apply aggregates_ok_set_equipped_. eauto.
  - rewrite discardEquipped_eq in Hexec.
    destruct (lookup_inv r m) as [t|] eqn:Ht; [|done].
    destruct (equipped_ t); [|by injection Hexec as <-].
    case_decide; [|done]. injection Hexec as <-.
    apply all_ok_update; [|eauto with inv].
    apply aggregates_ok_set_equipped_. eauto.
  - apply bind_Some_inv in Hexec as (i & m1 & Hop & Hexec).
    apply bind_Some_inv in Hexec as (r & m2 & Hplace & [= <-]).
    destruct (all_ok_copy_ctor _ _ _ _ Hm Hop).
    by eapply all_ok_place_Inventory.
  - apply bind_Some_inv in Hexec as (i & m1 & Hop & Hexec).
    apply bind_Some_inv in Hexec as (r & m2 & Hplace & [= <-]).
    destruct (all_ok_move_ctor _ _ _ _ Hm Hop).
    by eapply all_ok_place_Inventory.
  - by eapply all_ok_copy_assign.
  - by eapply all_ok_move_assign.
  - apply bind_Some_inv in Hexec as ([] & m1 & Hdtor & [= <-]).
    apply all_ok_remove_Inventory. by eapply all_ok_dtor.
  - apply bind_Some_inv in Hexec as (pl & m1 & Hop & Hexec).
    apply bind_Some_inv in Hexec as (p & m2 & Hplace & [= <-]).
    rewrite Player_ctor_eq in Hop.
    destruct (lookup_inv inventory m) as [r|] eqn:Hr; [|done].
    destruct (cloned _ _) as [[e h]|]; [|done]. injection Hop as <- <-.
    eapply all_ok_place_Player; [| |done]; simpl; eauto with inv.
  - apply bind_Some_inv in Hexec as (pl & m1 & Hop & Hexec).
    apply bind_Some_inv in Hexec as (p & m2 & Hplace & [= <-]).
    rewrite Player_copy_ctor_eq in Hop.
    destruct (players m !! rhs) as [pr|] eqn:Hpr; [|done].
    destruct (cloned _ _) as [[e h]|]; [|done]. injection Hop as <- <-.
    eapply all_ok_place_Player; [| |done]; simpl; eauto using all_ok_player with inv.
  - apply bind_Some_inv in Hexec as (pl & m1 & Hop & Hexec).
    apply bind_Some_inv in Hexec as (p & m2 & Hplace & [= <-]).
    rewrite Player_move_ctor_eq in Hop.
    destruct (players m !! rhs) as [pr|] eqn:Hpr; [|done].
    injection Hop as <- <-.
    eapply all_ok_place_Player; [| |done]; eauto using all_ok_player with inv.
  - destruct (decide (this = rhs)) as [->|Hne].
    { unfold Player_copy_assign in Hexec.
      rewrite decide_False in Hexec by (by intros []). by injection Hexec as <-. }
    rewrite Player_copy_assign_eq in Hexec by done.
    destruct (players m !! this) as [pt|] eqn:Hpt; [|done].
    destruct (players m !! rhs) as [pr|] eqn:Hpr; [|done].
    case_decide; [|done]. destruct (cloned _ _) as [[e h]|]; [|done].
    injection Hexec as <-. apply all_ok_update; [|eauto with inv].
    apply aggregates_ok_set_equipped_. by eapply all_ok_player.
  - destruct (decide (this = rhs)) as [->|Hne].
    { rewrite Player_move_assign_self in Hexec. by injection Hexec as <-. }
    rewrite Player_move_assign_eq in Hexec by done.
    destruct (players m !! this) as [pt|] eqn:Hpt; [|done].
    destruct (players m !! rhs) as [pr|] eqn:Hpr; [|done].
    case_decide; [|done]. injection Hexec as <-.
    apply all_ok_update; [eauto with inv|]. apply all_ok_update_name.
    apply all_ok_update; [by eapply all_ok_player | eauto with inv].
  - apply bind_Some_inv in Hexec as ([] & m1 & Hdtor & [= <-]).
    apply all_ok_remove_Player. by eapply all_ok_dtor.
Qed.

Lemma reachable_all_ok (permitted : op → Mem → Prop) m :
  (∀ o m, permitted o m → stores_occupied o m) →
  reachable permitted m → all_ok m.
Proof.
  intros Hpermitted Hreach. unfold reachable in Hreach.
  revert m Hreach.
  apply (rtc_ind_r (R := step permitted) (λ m, all_ok m) empty_mem).
  - apply all_ok_empty.
  - intros m0 m1 _ Hstep IH. by eapply step_all_ok.
Qed.

(** A program whose statements are all permitted and defined reaches the
    memory it ends in. *)
Lemma permitted_run_reachable (permitted : op → Mem → Prop) prog m :
  permitted_run permitted prog m →
  ∃ m', exec_all prog m = Some (tt, m') ∧ rtc (step permitted) m m'.
Proof.
  revert m. induction prog as [|o prog IH]; intros m Hrun; simpl in *.
  - by exists m.
  - destruct Hrun as [Hperm Hrun].
    destruct (exec o m) as [[[] m1]|] eqn:Hexec; [|done].
    destruct (IH m1 Hrun) as (m' & Hall & Hrtc).
    exists m'. split.
    + unfold bind. by rewrite Hexec.
    + eapply rtc_l; [|done]. by exists o.
Qed.
End invariant.

(** ** Exclusive ownership of the equipped item *)

Section ownership.
Implicit Types (m M : Mem) (this rhs a b : iref) (i t r : Inventory) (l : loc).

(** An Inventory is given a new value whose pointer is null or live and
    held by no other Inventory, in a memory [M] that has the Inventories of
    [m] and a free store in which the Items of the others are live. *)
Lemma owns_ok_update this i m M :
  owns_ok m →
  (∀ b, lookup_inv b M = lookup_inv b m) →
  (∀ l, equipped_ i = Some l →
        is_Some (free_store M !! l) ∧
        ∀ b ib, b ≠ this → lookup_inv b m = Some ib → equipped_ ib ≠ Some l) →
  (∀ b ib l, b ≠ this → lookup_inv b m = Some ib → equipped_ ib = Some l →
             is_Some (free_store M !! l)) →
  owns_ok (update_inv this i M).
Proof.
  intros [Hlive Huniq] Hsame Hnew Hothers. split.
  - intros b ib Hb. unfold deletable. mem_simpl.
    destruct (equipped_ ib) as [l|] eqn:He; [|done].
    destruct (decide (b = this)) as [->|Hne].
    + mem_simpl in Hb. rewrite Hsame in Hb.
      destruct (lookup_inv this m); simplify_eq/=. by apply Hnew.
    + mem_simpl in Hb. rewrite Hsame in Hb. by eapply Hothers.
  - intros a b ia ib l Ha Hb Hea Heb.
    destruct (decide (a = this)) as [->|Hna], (decide (b = this)) as [->|Hnb];
      [done|..]; mem_simpl in Ha; mem_simpl in Hb; rewrite Hsame in Ha, Hb.
    + destruct (lookup_inv this m); simplify_eq/=.
      destruct (Hnew l Hea) as [_ Hfree]. by destruct (Hfree b ib).
    + destruct (lookup_inv this m); simplify_eq/=.
      destruct (Hnew l Heb) as [_ Hfree]. by destruct (Hfree a ia).
    + by eapply Huniq.
Qed.

(** Only the free store changes, and every held Item stays live. *)
Lemma owns_ok_free_store m M :
  owns_ok m →
  (∀ b, lookup_inv b M = lookup_inv b m) →
  (∀ b ib l, lookup_inv b m = Some ib → equipped_ ib = Some l →
             is_Some (free_store M !! l)) →
  owns_ok M.
Proof.
  intros [Hlive Huniq] Hsame Hothers. split.
  - intros b ib Hb. rewrite Hsame in Hb. unfold deletable.
    destruct (equipped_ ib) as [l|] eqn:He; [|done]. by eapply Hothers.
  - intros a b ia ib l Ha Hb. rewrite Hsame in Ha, Hb. by eapply Huniq.
Qed.

Lemma owns_ok_live m this i l :
  owns_ok m → lookup_inv this m = Some i → equipped_ i = Some l →
  is_Some (free_store m !! l).
Proof. intros [Hlive _] Hi He. specialize (Hlive _ _ Hi). by rewrite He in Hlive. Qed.

(** A new object whose pointer is null or live and held by nobody. *)
Lemma owns_ok_place_Inventory i m this m' :
  owns_ok m → deletable (equipped_ i) m → unowned (equipped_ i) m →
  place_Inventory i m = Some (this, m') → owns_ok m'.
Proof.
  intros [Hlive Huniq] Hd Hun Hplace.
  destruct (place_Inventory_eq i m) as (k & Hk & Heq).
  rewrite Heq in Hplace. injection Hplace as _ <-. split.
  - intros b ib Hb. rewrite lookup_inv_placed in Hb. case_decide.
    + by simplify_eq.
    + by apply (Hlive b).
  - intros a b ia ib l Ha Hb Hea Heb. rewrite lookup_inv_placed in Ha, Hb.
    destruct (decide (a = InvObj k)) as [->|Hna], (decide (b = InvObj k)) as [->|Hnb];
      [done|..].
    + injection Ha as <-. by destruct (Hun b ib l).
    + injection Hb as <-. by destruct (Hun a ia l).
    + by eapply Huniq.
Qed.

Lemma lookup_inv_placed_Player (k : loc) pl m this :
  lookup_inv this (mkMem (free_store m) (inventories m) (<[k := pl]> (players m))) =
    if decide (this = inventory_of k) then Some (inventory_ pl) else lookup_inv this m.
Proof.
  destruct (decide (this = inventory_of k)) as [->|Hne]; unfold lookup_inv; simpl.
  - by rewrite lookup_insert_eq.
  - destruct this as [a|p]; [done|]. rewrite lookup_insert_ne; [done | congruence].
Qed.

Lemma owns_ok_place_Player pl m p m' :
  owns_ok m → deletable (equipped_ (inventory_ pl)) m →
  unowned (equipped_ (inventory_ pl)) m →
  place_Player pl m = Some (p, m') → owns_ok m'.
Proof.
  intros [Hlive Huniq] Hd Hun Hplace. unfold place_Player in Hplace.
  injection Hplace as _ <-. split.
  - intros b ib Hb. rewrite lookup_inv_placed_Player in Hb. case_decide.
    + by simplify_eq.
    + by apply (Hlive b).
  - intros a b ia ib l Ha Hb Hea Heb. rewrite lookup_inv_placed_Player in Ha, Hb.
    destruct (decide (a = inventory_of (fresh (dom (players m))))) as [->|Hna],
             (decide (b = inventory_of (fresh (dom (players m))))) as [->|Hnb];
      [done|..].
    + injection Ha as <-. by destruct (Hun b ib l).
    + injection Hb as <-. by destruct (Hun a ia l).
    + by eapply Huniq.
Qed.

(** An object goes away. *)
Lemma owns_ok_remove m M :
  owns_ok m →
  free_store M = free_store m →
  (∀ b ib, lookup_inv b M = Some ib → lookup_inv b m = Some ib) →
  owns_ok M.
Proof.
  intros [Hlive Huniq] Hfs Hsub. split.
  - intros b ib Hb. specialize (Hlive _ _ (Hsub _ _ Hb)).
    unfold deletable in *. by rewrite Hfs.
  - intros a b ia ib l Ha Hb. eapply Huniq; eauto.
Qed.

(** The Items of the other Inventories survive [delete equipped_]. *)
Lemma live_after_freed m this t b ib l :
  owns_ok m → lookup_inv this m = Some t →
  b ≠ this → lookup_inv b m = Some ib → equipped_ ib = Some l →
  is_Some (freed (equipped_ t) (free_store m) !! l).
Proof.
  intros Hm Ht Hne Hb He. pose proof (owns_ok_live _ _ _ _ Hm Hb He) as Hl.
  destruct (equipped_ t) as [lt|] eqn:Het; simpl; [|done].
  rewrite lookup_delete_ne; [done|]. intros <-.
  destruct Hm as [_ Huniq]. by destruct Hne, (Huniq this b t ib lt).
Qed.

Lemma cloned_spec p h0 e h :
  cloned p h0 = Some (e, h) →
  (∀ l, is_Some (h0 !! l) → is_Some (h !! l)) ∧
  (∀ l, e = Some l → is_Some (h !! l) ∧ h0 !! l = None).
Proof.
  unfold cloned. destruct p as [lp|].
  - destruct (h0 !! lp) as [v|] eqn:Hlp; [|done]. intros [= <- <-].
    assert (h0 !! fresh (dom h0) = None) as Hfresh by apply not_elem_of_dom, is_fresh.
    split.
    + intros l Hl. apply lookup_insert_is_Some'. by right.
    + intros l [= <-]. by rewrite lookup_insert_eq.
  - intros [= <- <-]. by split.
Qed.

Lemma store_equipped_ row col pickup t :
  equipped_ (store row col pickup t).2 = equipped_ t.
Proof. unfold store. destruct (invalid_index _ _ _); [done|]. by case_decide. Qed.

(** The value of an Inventory changes, its pointer does not. *)
Lemma owns_ok_same_pointer this t i m :
  owns_ok m → lookup_inv this m = Some t → equipped_ i = equipped_ t →
  owns_ok (update_inv this i m).
Proof.
  intros Hm Ht He. apply (owns_ok_update this i m m Hm); [done|..].
  - intros l Hl. rewrite He in Hl. split; [by eapply owns_ok_live|].
    intros b ib Hne Hb Heb. destruct Hm as [_ Huniq].
    by destruct Hne, (Huniq b this ib t l).
  - intros b ib l _ Hb Heb. by eapply owns_ok_live.
Qed.

(** An Inventory deletes its Item and takes a pointer that is null or
    fresh. *)
Lemma owns_ok_replace this t i m M :
  owns_ok m → lookup_inv this m = Some t →
  (∀ b, lookup_inv b M = lookup_inv b m) →
  (∀ l, is_Some (freed (equipped_ t) (free_store m) !! l) → is_Some (free_store M !! l)) →
  (∀ l, equipped_ i = Some l →
        is_Some (free_store M !! l) ∧ freed (equipped_ t) (free_store m) !! l = None) →
  owns_ok (update_inv this i M).
Proof.
  intros Hm Ht Hsame Hkept Hnew. apply (owns_ok_update this i m M Hm); [done|..].
  - intros l Hl. destruct (Hnew l Hl) as [Hlive Hfresh]. split; [done|].
    intros b ib Hne Hb Heb.
    pose proof (live_after_freed _ _ _ _ _ _ Hm Ht Hne Hb Heb) as [v Hv]. congruence.
  - intros b ib l Hne Hb Heb. apply Hkept. by eapply live_after_freed.
Qed.

(** The state of [rhs] moves to [this], which deletes its own Item. *)
Lemma owns_ok_move this rhs t r m M :
  owns_ok m → this ≠ rhs →
  lookup_inv this m = Some t → lookup_inv rhs m = Some r →
  free_store M = freed (equipped_ t) (free_store m) →
  lookup_inv this M = Some r →
  lookup_inv rhs M = Some moved_from →
  (∀ b, b ≠ this → b ≠ rhs → lookup_inv b M = lookup_inv b m) →
  owns_ok M.
Proof.
  intros Hm Hne Ht Hr Hfs Hthis Hrhs Hother.
  assert (∀ b ib, lookup_inv b M = Some ib →
            ∀ l, equipped_ ib = Some l →
            ∃ b0, b0 ≠ this ∧ (b = this ∧ b0 = rhs ∨ b ≠ this ∧ b ≠ rhs ∧ b0 = b) ∧
                  ∃ ib0, lookup_inv b0 m = Some ib0 ∧ equipped_ ib0 = Some l) as Horigin.
  { intros b ib Hb l He.
    destruct (decide (b = this)) as [->|Hbt].
    { exists rhs. split; [done|]. split; [by left|]. exists r. split; [done|]. congruence. }
    destruct (decide (b = rhs)) as [->|Hbr].
    { rewrite Hrhs in Hb. by simplify_eq. }
    exists b. split; [done|]. split; [by right|]. exists ib. by rewrite <-Hother. }
  split.
  - intros b ib Hb. unfold deletable. destruct (equipped_ ib) as [l|] eqn:He; [|done].
    destruct (Horigin b ib Hb l He) as (b0 & Hb0 & _ & ib0 & Hib0 & He0).
    rewrite Hfs. by eapply live_after_freed.
  - intros a b ia ib l Ha Hb Hea Heb.
    destruct (Horigin a ia Ha l Hea) as (a0 & _ & Hca & ia0 & Hia0 & Hea0).
    destruct (Horigin b ib Hb l Heb) as (b0 & _ & Hcb & ib0 & Hib0 & Heb0).
    assert (a0 = b0) as Heq by (destruct Hm as [_ Huniq]; by eapply Huniq).
    destruct Hca as [[-> ->]|(? & ? & ->)], Hcb as [[-> ->]|(? & ? & ->)]; congruence.
Qed.

(** An Inventory deletes its Item and nulls its pointer. *)
Lemma owns_ok_dtor this m m' :
  owns_ok m → Inventory_dtor this m = Some (tt, m') → owns_ok m'.
Proof.
  intros Hm. rewrite Inventory_dtor_eq.
  destruct (lookup_inv this m) as [t|] eqn:Ht; [|done].
  case_decide; [|done]. intros [= <-].
  by apply (owns_ok_replace this t _ m).
Qed.

(** After [new Item( *rhs.equipped_ )] the clone is live and nobody's. *)
Lemma owns_ok_cloned m e h :
  owns_ok m → (∃ p, cloned p (free_store m) = Some (e, h)) →
  owns_ok (set_free_store h m) ∧
  deletable e (set_free_store h m) ∧
  unowned e (set_free_store h m).
Proof.
  intros Hm [p Hclone]. destruct (cloned_spec _ _ _ _ Hclone) as [Hkept Hnew].
  split; [|split].
  - apply (owns_ok_free_store m); [done | by intros; mem_simpl |].
    intros b ib l Hb He. mem_simpl. apply Hkept. by eapply owns_ok_live.
  - unfold deletable. destruct e as [l|]; [|done]. mem_simpl. by apply Hnew.
  - intros b ib l -> Hb He. mem_simpl in Hb.
    destruct (Hnew l eq_refl) as [_ Hfresh].
    destruct (owns_ok_live _ _ _ _ Hm Hb He) as [v Hv]. congruence.
Qed.

(** After a move construction from [rhs] its former Item is live and
    nobody's. *)
Lemma owns_ok_moved_out rhs r m M :
  owns_ok m → lookup_inv rhs m = Some r →
  (∀ b, lookup_inv b M = lookup_inv b m) → free_store M = free_store m →
  owns_ok (update_inv rhs moved_from M) ∧
  deletable (equipped_ r) (update_inv rhs moved_from M) ∧
  unowned (equipped_ r) (update_inv rhs moved_from M).
Proof.
  intros Hm Hr Hsame Hfs. split; [|split].
  - apply (owns_ok_update rhs moved_from m M Hm); [done..|].
    intros b ib l _ Hb He. rewrite Hfs. by eapply owns_ok_live.
  - unfold deletable. destruct (equipped_ r) as [l|] eqn:He; [|done].
    mem_simpl. rewrite Hfs. by eapply owns_ok_live.
  - intros b ib l He Hb Heb. destruct (decide (b = rhs)) as [->|Hne].
    + mem_simpl in Hb. rewrite Hsame, Hr in Hb. by simplify_eq/=.
    + mem_simpl in Hb. rewrite Hsame in Hb. destruct Hm as [_ Huniq].
      by destruct Hne, (Huniq b rhs ib r l).
Qed.

(** A permitted step of a program that hands over ownership keeps every
    Inventory the only owner of a live Item. *)
Lemma step_owns_ok (permitted : op → Mem → Prop) m m' :
  (∀ o m, permitted o m → hands_over o m) →
  step permitted m m' → owns_ok m → owns_ok m'.
Proof.
  intros Hpermitted (o & Hperm & Hexec) Hm. apply Hpermitted in Hperm.
  destruct o as
    [ v | p v | p | items equipped | this row col | this row col pickup | this p | this
    | rhs | rhs | this rhs | this rhs | k
    | name inventory | rhs | remains rhs | this rhs | remains this rhs | p ];
    simpl in Hexec, Hperm.
  - apply bind_Some_inv in Hexec as (p & m1 & Hop & [= <-]).
    unfold new_Item in Hop. injection Hop as _ <-.
    apply (owns_ok_free_store m); [done | by intros; mem_simpl |].
    intros b ib l Hb He. mem_simpl. apply lookup_insert_is_Some'. right.
    by eapply owns_ok_live.
  - unfold assign_Item in Hexec. destruct p as [l0|]; [|done].
    destruct (free_store m !! l0); [|done]. injection Hexec as <-.
    apply (owns_ok_free_store m); [done | by intros; mem_simpl |].
    intros b ib l Hb He. mem_simpl. apply lookup_insert_is_Some'. right.
    by eapply owns_ok_live.
  - unfold delete_Item in Hexec. destruct p as [l0|]; [|by injection Hexec as <-].
    destruct (free_store m !! l0); [|done]. injection Hexec as <-.
    apply (owns_ok_free_store m); [done | by intros; mem_simpl |].
    intros b ib l Hb He. mem_simpl. rewrite lookup_delete_ne.
    + by eapply owns_ok_live.
    + intros ->. by destruct (Hperm b ib l).
  - apply bind_Some_inv in Hexec as (r0 & m1 & Hop & [= <-]).
    destruct Hperm as [Hd Hun].
    eapply owns_ok_place_Inventory; [done | | | done];
      by rewrite Inventory_ctor_eq.
  - apply bind_Some_inv in Hexec as (res & m1 & Hop & [= <-]).
    rewrite call_eq in Hop. destruct (lookup_inv this m) as [t|] eqn:Ht; [|done].
    injection Hop as _ <-. by eapply owns_ok_same_pointer.
  - apply bind_Some_inv in Hexec as (res & m1 & Hop & [= <-]).
    rewrite call_eq in Hop. destruct (lookup_inv this m) as [t|] eqn:Ht; [|done].
    injection Hop as _ <-.
    eapply owns_ok_same_pointer; [done.. | apply store_equipped_].
  - apply bind_Some_inv in Hexec as (res & m1 & Hop & [= <-]).
    rewrite call_eq in Hop. destruct (lookup_inv this m) as [t|] eqn:Ht; [|done].
    injection Hop as _ <-. destruct Hperm as [Hd Hun].
    apply (owns_ok_update this _ m m Hm); [done|..]; simpl.
    + intros l ->. split; [done|]. intros b ib _ Hb. by eapply Hun.
    + intros b ib l _ Hb He. by eapply owns_ok_live.
  - rewrite discardEquipped_eq in Hexec.
    destruct (lookup_inv this m) as [t|] eqn:Ht; [|done].
    destruct (equipped_ t) as [l|] eqn:He; [|by injection Hexec as <-].
    case_decide; [|done]. injection Hexec as <-.
    apply (owns_ok_replace this t _ m); try done. by rewrite He.
  - apply bind_Some_inv in Hexec as (i & m1 & Hop & Hexec).
    apply bind_Some_inv in Hexec as (r0 & m2 & Hplace & [= <-]).
    rewrite Inventory_copy_ctor_eq in Hop.
    destruct (lookup_inv rhs m) as [r|] eqn:Hr; [|done].
    destruct (cloned _ _) as [[e h]|] eqn:Hclone; [|done]. injection Hop as <- <-.
    destruct (owns_ok_cloned m e h Hm) as (Hm1 & Hd & Hun); [by eexists|].
    exact (owns_ok_place_Inventory (set_equipped_ e r) _ _ _ Hm1 Hd Hun Hplace).
  - apply bind_Some_inv in Hexec as (i & m1 & Hop & Hexec).
    apply bind_Some_inv in Hexec as (r0 & m2 & Hplace & [= <-]).
    rewrite Inventory_move_ctor_eq in Hop.
    destruct (lookup_inv rhs m) as [r|] eqn:Hr; [|done]. injection Hop as <- <-.
    destruct (owns_ok_moved_out rhs r m m Hm Hr) as (Hm1 & Hd & Hun); [done..|].
    exact (owns_ok_place_Inventory r _ _ _ Hm1 Hd Hun Hplace).
  - destruct (decide (this = rhs)) as [->|Hne].
    { rewrite Inventory_copy_assign_self in Hexec. by injection Hexec as <-. }
    rewrite Inventory_copy_assign_eq in Hexec by done.
    destruct (lookup_inv this m) as [t|] eqn:Ht; [|done].
    destruct (lookup_inv rhs m) as [r|] eqn:Hr; [|done].
    case_decide; [|done].
    destruct (cloned _ _) as [[e h]|] eqn:Hclone; [|done]. injection Hexec as <-.
    destruct (cloned_spec _ _ _ _ Hclone) as [Hkept Hnew].
    by apply (owns_ok_replace this t _ m).
  - destruct (decide (this = rhs)) as [->|Hne].
    { rewrite Inventory_move_assign_self in Hexec. by injection Hexec as <-. }
    rewrite Inventory_move_assign_eq in Hexec by done.
    destruct (lookup_inv this m) as [t|] eqn:Ht; [|done].
    destruct (lookup_inv rhs m) as [r|] eqn:Hr; [|done].
    case_decide; [|done]. injection Hexec as <-.
    apply (owns_ok_move this rhs t r m); try done; mem_simpl; rewrite ?Ht, ?Hr; try done.
    intros b ??. by mem_simpl.
  - apply bind_Some_inv in Hexec as ([] & m1 & Hdtor & [= <-]).
    apply (owns_ok_remove m1); [by eapply owns_ok_dtor | done |].
    intros [k'|q] ib Hb; unfold lookup_inv in *; simpl in *; [|done].
    by apply lookup_delete_Some in Hb as [_ Hb].
  - apply bind_Some_inv in Hexec as (pl & m1 & Hop & Hexec).
    apply bind_Some_inv in Hexec as (q & m2 & Hplace & [= <-]).
    rewrite Player_ctor_eq in Hop.
    destruct (lookup_inv inventory m) as [r|] eqn:Hr; [|done].
    destruct (cloned _ _) as [[e h]|] eqn:Hclone; [|done]. injection Hop as <- <-.
    destruct (owns_ok_cloned m e h Hm) as (Hm1 & Hd & Hun); [by eexists|].
    exact (owns_ok_place_Player (mkPlayer name (set_equipped_ e r)) _ _ _ Hm1 Hd Hun Hplace).
  - apply bind_Some_inv in Hexec as (pl & m1 & Hop & Hexec).
    apply bind_Some_inv in Hexec as (q & m2 & Hplace & [= <-]).
    rewrite Player_copy_ctor_eq in Hop.
    destruct (players m !! rhs) as [pr|] eqn:Hpr; [|done].
    destruct (cloned _ _) as [[e h]|] eqn:Hclone; [|done]. injection Hop as <- <-.
    destruct (owns_ok_cloned m e h Hm) as (Hm1 & Hd & Hun); [by eexists|].
    exact (owns_ok_place_Player (mkPlayer (name_ pr) (set_equipped_ e (inventory_ pr))) _ _ _ Hm1 Hd Hun Hplace).
  - apply bind_Some_inv in Hexec as (pl & m1 & Hop & Hexec).
    apply bind_Some_inv in Hexec as (q & m2 & Hplace & [= <-]).
    rewrite Player_move_ctor_eq in Hop.
    destruct (players m !! rhs) as [pr|] eqn:Hpr; [|done]. injection Hop as <- <-.
    destruct (players_lookup_Some _ _ _ Hpr) as [_ Hir].
    destruct (owns_ok_moved_out (inventory_of rhs) (inventory_ pr) m
                (update_name rhs remains m) Hm Hir) as (Hm1 & Hd & Hun);
      [by intros; mem_simpl | done |].
    exact (owns_ok_place_Player pr _ _ _ Hm1 Hd Hun Hplace).
  - destruct (decide (this = rhs)) as [->|Hne].
    { unfold Player_copy_assign in Hexec.
      rewrite decide_False in Hexec by (by intros []). by injection Hexec as <-. }
    rewrite Player_copy_assign_eq in Hexec by done.
    destruct (players m !! this) as [pt|] eqn:Hpt; [|done].
    destruct (players m !! rhs) as [pr|] eqn:Hpr; [|done].
    case_decide; [|done].
    destruct (cloned _ _) as [[e h]|] eqn:Hclone; [|done]. injection Hexec as <-.
    destruct (cloned_spec _ _ _ _ Hclone) as [Hkept Hnew].
    destruct (players_lookup_Some _ _ _ Hpt) as [_ Hit].
    apply (owns_ok_replace (inventory_of this) (inventory_ pt) _ m); try done.
    by intros; mem_simpl.
  - destruct (decide (this = rhs)) as [->|Hne].
    { rewrite Player_move_assign_self in Hexec. by injection Hexec as <-. }
    rewrite Player_move_assign_eq in Hexec by done.
    destruct (players m !! this) as [pt|] eqn:Hpt; [|done].
    destruct (players m !! rhs) as [pr|] eqn:Hpr; [|done].
    case_decide; [|done]. injection Hexec as <-.
    destruct (players_lookup_Some _ _ _ Hpt) as [_ Hit].
    destruct (players_lookup_Some _ _ _ Hpr) as [_ Hir].
    apply (owns_ok_move (inventory_of this) (inventory_of rhs)
             (inventory_ pt) (inventory_ pr) m); try done; try congruence;
      mem_simpl; rewrite ?Hit, ?Hir; try done.
    intros b ??. by mem_simpl.
  - apply bind_Some_inv in Hexec as ([] & m1 & Hdtor & [= <-]).
    apply (owns_ok_remove m1); [by eapply owns_ok_dtor | done |].
    intros [k'|q] ib Hb; unfold lookup_inv in *; simpl in *; [done|].
    destruct (decide (p = q)) as [->|Hne].
    + by rewrite lookup_delete_eq in Hb.
    + by rewrite lookup_delete_ne in Hb.
Qed.

Lemma owns_ok_empty : owns_ok empty_mem.
Proof.
  split.
  - intros [a|p] i; unfold lookup_inv; simpl; by rewrite lookup_empty.
  - intros [a|p] b ia ib l; unfold lookup_inv; simpl; by rewrite lookup_empty.
Qed.

(** In every memory reached by a program that hands over ownership, each
    Inventory is the only owner of the Item it has equipped, and that Item
    is live. *)
Lemma reachable_owns_ok (permitted : op → Mem → Prop) m :
  (∀ o m, permitted o m → hands_over o m) →
  reachable permitted m → owns_ok m.
Proof.
  intros Hpermitted Hreach. unfold reachable in Hreach. revert m Hreach.
  apply (rtc_ind_r (R := step permitted) (λ m, owns_ok m) empty_mem).
  - apply owns_ok_empty.
  - intros m0 m1 _ Hstep IH. by eapply step_owns_ok.
Qed.

(** Under exclusive ownership the pointers of two different Inventories
    meet what copy and move assignment need: the destination's pointer may
    be deleted, and the source's Item is live and not the destination's. *)
Lemma owns_ok_assignable m this rhs t r :
  owns_ok m → this ≠ rhs →
  lookup_inv this m = Some t → lookup_inv rhs m = Some r →
  deletable (equipped_ t) m ∧
  ∀ l, equipped_ r = Some l →
       equipped_ t ≠ Some l ∧ is_Some (free_store m !! l).
Proof.
  intros Hm Hne Ht Hr. split; [by apply (proj1 Hm this)|].
  intros l He. split; [|by eapply owns_ok_live].
  intros Het. destruct Hm as [_ Huniq]. by destruct Hne, (Huniq this rhs t r l).
Qed.
End ownership.

Section reachable_inventories.
Implicit Types (m : Mem) (this : iref) (i : Inventory).

Lemma length_occupied g : (length (occupied g) ≤ length (concat g))%nat.
Proof. apply length_filter. Qed.

(** C1 (amended). Take any memory reached from nothing by the public
    operations (construction, [store], [equip], [discardEquipped], copy
    and move construction and assignment, and destruction, of Inventories
    and of Players, with any use of Items on the free store in between)
    in which [store] was only ever given items whose category is not
    [NONE].  For every Inventory in it, the cached weight is the [float]
    sum of the weights of the grid cells whose category is not [NONE],
    added up in some order, and the cached count is the number of such
    cells as a [size_t] (exactly that number when the grid has fewer
    than [2^64] cells).  The equipped item is in neither: a newly
    constructed Inventory has the row-major sum and the number of the
    occupied cells of its grid whatever pointer it is given. *)
Theorem reachable_aggregates m this i :
  reachable stores_occupied m →
  lookup_inv this m = Some i →
  weight_ok i ∧
  count_ok i ∧
  (Z.of_nat (length (concat (inventory_grid_ i))) < SizeT.modulus →
     item_count_ i = Z.of_nat (length (occupied (inventory_grid_ i)))) ∧
  (∀ items equipped,
     Inventory_ctor items equipped =
       mkInventory items equipped (float_sum (occupied items))
         (SizeT.wrap (Z.of_nat (length (occupied items))))).
Proof.
  intros Hreach Hi.
  destruct (reachable_all_ok _ m (λ o m H, H) Hreach this i Hi) as [Hw Hc].
  split; [done|]. split; [done|]. split; [|apply Inventory_ctor_eq].
  intros Hsmall. rewrite Hc. unfold SizeT.wrap. apply Z.mod_small.
  pose proof (length_occupied (inventory_grid_ i)). lia.
Qed.
End reachable_inventories.

(** ** Moving, under exclusive ownership *)

Section move_claims.
Implicit Types (m : Mem) (t r : Inventory).

(** Under exclusive ownership the Item of [rhs] is not the one [this]
    deletes, so it is live and as it was after [this] has deleted its
    own. *)
Lemma pointee_after_freed m (this rhs : iref) t r :
  owns_ok m → this ≠ rhs →
  lookup_inv this m = Some t → lookup_inv rhs m = Some r →
  ∀ h, h = freed (equipped_ t) (free_store m) →
       (equipped_ r ≫= (h !!.)) = pointee (equipped_ r) m ∧
       ∀ l, equipped_ r = Some l → is_Some (h !! l).
Proof.
  intros Hm Hne Ht Hr h ->.
  destruct (owns_ok_assignable m this rhs t r Hm Hne Ht Hr) as [_ Hown].
  assert (∀ l, equipped_ r = Some l →
               freed (equipped_ t) (free_store m) !! l = free_store m !! l) as Hsame.
  { intros l He. destruct (Hown l He) as [Hnot _].
    destruct (equipped_ t) as [lt|]; simpl; [|done].
    apply lookup_delete_ne. congruence. }
  split.
  - unfold pointee. destruct (equipped_ r) as [l|] eqn:He; [simpl|done].
    by apply Hsame.
  - intros l He. rewrite Hsame by done. by destruct (Hown l He).
Qed.


(** C10 (amended). Moving a Player, by move construction or by move
    assignment into another Player, gives the destination the source's
    name and inventory and leaves the source's inventory in the
    moved-from state (empty grid, no equipped item, weight 0, count 0).
    The code does not clear the source's name: it is what the library
    leaves in a moved-from string, [remains], and so empty only with a
    library that leaves the empty string.  This holds of move
    construction always and of move assignment whenever it is defined.
    Where every Inventory owns its equipped Item exclusively, move
    assignment is defined, the Item the source's inventory had equipped is
    live and as it was, and ownership is exclusive again. *)
Theorem Player_move_transfers remains (rhs : loc) m (pr : Player) :
  players m !! rhs = Some pr →
  (∃ m', Player_move_ctor remains rhs m = Some (pr, m') ∧
         players m' !! rhs = Some (mkPlayer remains moved_from) ∧
         free_store m' = free_store m) ∧
  (∀ (this : loc) m',
     this ≠ rhs →
     Player_move_assign remains this rhs m = Some (tt, m') →
     players m' !! this = Some pr ∧
     players m' !! rhs = Some (mkPlayer remains moved_from)) ∧
  (∀ (this : loc) (pt : Player),
     this ≠ rhs →
     players m !! this = Some pt →
     owns_ok m →
     ∃ m', Player_move_assign remains this rhs m = Some (tt, m') ∧
           players m' !! this = Some pr ∧
           players m' !! rhs = Some (mkPlayer remains moved_from) ∧
           free_store m' = freed (equipped_ (inventory_ pt)) (free_store m) ∧
           pointee (equipped_ (inventory_ pr)) m' =
             pointee (equipped_ (inventory_ pr)) m ∧
           (∀ l, equipped_ (inventory_ pr) = Some l → is_Some (free_store m' !! l)) ∧
           owns_ok m').
Proof.
  intros Hpr. destruct (players_lookup_Some _ _ _ Hpr) as [Hnr Hir].
  split; [|split].
  - rewrite Player_move_ctor_eq, Hpr. eexists. split; [done|].
    split; [|by mem_simpl].
    apply players_lookup; mem_simpl; by rewrite ?Hnr, ?Hir.
  - intros this m' Hne Hexec. by apply (Player_move_assign_distinct this rhs m Hne).
  - intros this pt Hne Hpt Hm.
    destruct (players_lookup_Some _ _ _ Hpt) as [Hnt Hit].
    assert (inventory_of this ≠ inventory_of rhs) as Hne' by congruence.
    destruct (owns_ok_assignable m _ _ _ _ Hm Hne' Hit Hir) as [Hd _].
    assert (is_Some (Player_move_assign remains this rhs m)) as [[[] m'] Hexec]
      by (by rewrite Player_move_assign_eq, Hpt, Hpr, decide_True).
    exists m'. split; [exact Hexec|].
    destruct (Player_move_assign_distinct this rhs m Hne remains pr m' Hpr Hexec)
      as [Hthis Hrhs].
    split; [done|]. split; [done|].
    assert (free_store m' = freed (equipped_ (inventory_ pt)) (free_store m)) as Hfs.
    { rewrite Player_move_assign_eq, Hpt, Hpr, decide_True in Hexec by done.
      injection Hexec as <-. by mem_simpl. }
    split; [done|].
    destruct (pointee_after_freed m _ _ _ _ Hm Hne' Hit Hir _ eq_refl)
      as [Hitem Hlive].
    split; [by unfold pointee at 1; rewrite Hfs|].
    split; [by intros l He; rewrite Hfs; apply Hlive|].
    apply (step_owns_ok hands_over m); [done | | done].
    by exists (Op_Player_move_assign remains this rhs).
Qed.
End move_claims.

(** ** The properties at work on sample data *)

Section examples.
(** A 2x2 grid of swords of weight 10.5 with a shield equipped weighs 42
    and counts 4; the shield is not in it. *)
Lemma Inventory_ctor_2x2 :
  Inventory_ctor grid2x2 (Some L1) =
    mkInventory grid2x2 (Some L1) (Float32.of_Z 42 0) 4.
Proof. vm_compute. reflexivity. Qed.

(** The cached weight follows the order of the stores, not the order of
    the grid: with cells of weight 1 and [2^24], storing weight 1 in front
    makes the cache [2^24] while the grid sums row by row to [2^24 + 2]. *)
Lemma stored_weight_is_not_row_major_sum :
  let this := (store 0 0 pebble (Inventory_ctor [[blank; pebble; anvil]] None)).2 in
  weight_ this = Float32.of_Z 16777216 0 ∧
  float_sum (occupied (inventory_grid_ this)) = Float32.of_Z 16777218 0 ∧
  float_sum [pebble; anvil; pebble] = Float32.of_Z 16777216 0.
Proof. vm_compute. done. Qed.

(** The Inventories of the sample memory and what they have equipped. *)
Lemma lookup_inv_sample this i :
  lookup_inv this sample_mem = Some i →
  (this = InvObj L1 ∧ equipped_ i = Some L1) ∨
  (this = InvObj L2 ∧ equipped_ i = None) ∨
  (this = inventory_of L1 ∧ equipped_ i = Some L2) ∨
  (this = inventory_of L2 ∧ equipped_ i = None).
Proof.
  destruct this as [a|p]; unfold lookup_inv, sample_mem; simpl; intros H.
  - apply lookup_insert_Some in H as [[<- <-] | [Hne H]]; [by right; left|].
    apply lookup_singleton_Some in H as [<- <-]. by left.
  - apply fmap_Some in H as (pl & H & ->).
    apply lookup_insert_Some in H as [[<- <-] | [Hne H]]; [by right; right; right|].
    apply lookup_singleton_Some in H as [<- <-]. by right; right; left.
Qed.

Lemma owns_ok_sample : owns_ok sample_mem.
Proof.
  split.
  - intros this i Hi.
    destruct (lookup_inv_sample _ _ Hi) as [[_ ->]|[[_ ->]|[[_ ->]|[_ ->]]]];
      simpl; try done; by eexists.
  - intros a b ia ib l Ha Hb Hea Heb.
    destruct (lookup_inv_sample _ _ Ha) as [[-> Ea]|[[-> Ea]|[[-> Ea]|[-> Ea]]]];
      destruct (lookup_inv_sample _ _ Hb) as [[-> Eb]|[[-> Eb]|[[-> Eb]|[-> Eb]]]];
      try done; unfold L1, L2 in *; congruence.
Qed.

Lemma at_store_out_of_range_witness :
  index_out_of_range 10 10 (inventory_grid_ one_cell) ∧
  at_ 10 10 one_cell = (Threw (out_of_range "Invalid inventory index."), one_cell) ∧
  store 10 10 potion one_cell = (Threw (out_of_range "Invalid inventory index."), one_cell).
Proof.
  assert (index_out_of_range 10 10 (inventory_grid_ one_cell)) as H
    by (left; vm_compute; lia).
  split; [exact H|].
  exact (proj2 (proj2 (at_store_out_of_range one_cell 10 10 potion)) H).
Defined.

Lemma store_empty_cell_witness :
  ∃ this',
    store 0 0 potion one_cell = (Returned true, this') ∧
    cell_at 0 0 (inventory_grid_ this') = Some potion ∧
    weight_ this' = Float32.add (weight_ one_cell) (Item.weight_ potion) ∧
    item_count_ this' = 1.
Proof.
  destruct (store_empty_cell one_cell 0 0 potion blank eq_refl eq_refl)
    as (this' & Hstore & Hcell & _ & Hw & Hc & _).
  exists this'. repeat split; assumption.
Defined.

Lemma store_occupied_cell_witness :
  store 1 0 potion (Inventory_ctor grid2x2 None) =
    (Returned false, Inventory_ctor grid2x2 None).
Proof.
  apply (store_occupied_cell (Inventory_ctor grid2x2 None) 1 0 potion sword).
  - reflexivity.
  - vm_compute. discriminate.
Defined.

Lemma store_NONE_item_witness :
  ∃ this',
    store 0 0 ghost one_cell = (Returned true, this') ∧
    at_ 0 0 this' = (Returned ghost, this') ∧
    item_count_ this' = 1 ∧
    occupied (inventory_grid_ this') = [].
Proof.
  destruct (store_NONE_item one_cell 0 0 ghost blank eq_refl eq_refl eq_refl)
    as (this' & Hstore & Hat & _ & _ & Hc & Hocc & _).
  exists this'. repeat split; assumption.
Defined.

Lemma equip_rebinds_witness :
  ∃ m' t',
    call (InvObj L1) (equip (Some L2)) sample_mem = Some (Returned tt, m') ∧
    lookup_inv (InvObj L1) m' = Some t' ∧
    equipped_ t' = Some L2 ∧
    free_store m' = free_store sample_mem ∧
    item_count_ t' = 4.
Proof.
  destruct (equip_rebinds (InvObj L1) sample_mem
              (Inventory_ctor grid2x2 (Some L1)) (Some L2) eq_refl)
    as (m' & t' & Hcall & Hlook & He & Hfs & _ & _ & _ & Hc & _).
  exists m', t'. repeat split; assumption.
Defined.

Lemma discardEquipped_twice_witness :
  (discardEquipped (InvObj L1);; discardEquipped (InvObj L1)) sample_mem =
    discardEquipped (InvObj L1) sample_mem ∧
  ∃ m', discardEquipped (InvObj L1) sample_mem = Some (tt, m') ∧
        free_store m' = delete L1 (free_store sample_mem) ∧
        discardEquipped (InvObj L1) m' = Some (tt, m').
Proof.
  destruct (discardEquipped_twice (InvObj L1) sample_mem
              (Inventory_ctor grid2x2 (Some L1)) eq_refl) as (_ & Htwice & Hsafe).
  split; [exact Htwice|].
  destruct Hsafe as (m' & Hfirst & _ & Hfs & Hsecond).
  - vm_compute. eexists. reflexivity.
  - exists m'. repeat split; assumption.
Defined.


Lemma Player_move_transfers_witness :
  ∃ m',
    Player_move_assign "" L2 L1 sample_mem = Some (tt, m') ∧
    players m' !! L2 = Some (mkPlayer "Knight" (Inventory_ctor grid2x2 (Some L2))) ∧
    players m' !! L1 = Some (mkPlayer "" moved_from) ∧
    pointee (Some L2) m' = Some helmet.
Proof.
  destruct (Player_move_transfers "" L1 sample_mem
              (mkPlayer "Knight" (Inventory_ctor grid2x2 (Some L2))) eq_refl)
    as (_ & _ & Hassign).
  destruct (Hassign L2 (mkPlayer "Squire" one_cell))
    as (m' & Hop & Hthis & Hrhs & _ & Hitem & _).
  - discriminate.
  - reflexivity.
  - exact owns_ok_sample.
  - exists m'. split; [exact Hop|]. split; [exact Hthis|]. split; [exact Hrhs|].
    exact Hitem.
Defined.

Lemma Inventory_copy_independent_witness :
  ∃ i m',
    Inventory_copy_assign (InvObj L2) (InvObj L1) sample_mem = Some (tt, m') ∧
    lookup_inv (InvObj L2) m' = Some i ∧
    equipped_copied (InvObj L2) (InvObj L1) shield m'.
Proof.
  destruct (Inventory_copy_independent (InvObj L1) sample_mem
              (Inventory_ctor grid2x2 (Some L1)) L1 shield eq_refl eq_refl eq_refl)
    as (_ & _ & Hassign).
  destruct (Hassign (InvObj L2) (Inventory_ctor [[blank; potion]] None))
    as (i & m' & Hop & _ & Hthis & _ & Hcopied).
  - discriminate.
  - reflexivity.
  - exact I.
  - discriminate.
  - exists i, m'. split; [exact Hop|]. split; [exact Hthis | exact Hcopied].
Defined.

Lemma one_cell_then_store_reachable (permitted : op → Mem → Prop) pickup :
  permitted (Op_Inventory [[blank]] None) empty_mem →
  (∀ m, permitted (Op_store (InvObj L1) 0 0 pickup) m) →
  reachable permitted (one_cell_then_store pickup).
Proof.
  intros Hctor Hstore.
  destruct (permitted_run_reachable permitted
              [Op_Inventory [[blank]] None; Op_store (InvObj L1) 0 0 pickup]
              empty_mem) as (m' & Hrun & Hreach).
  - split; [exact Hctor|]. simpl. split; [apply Hstore | exact I].
  - unfold one_cell_then_store, run. rewrite Hrun. exact Hreach.
Defined.

Lemma reachable_aggregates_witness :
  ∃ i, lookup_inv (InvObj L1) (one_cell_then_store potion) = Some i ∧
       weight_ok i ∧ count_ok i ∧ item_count_ i = 1.
Proof.
  destruct (reachable_aggregates (one_cell_then_store potion) (InvObj L1)
              (mkInventory [[potion]] None (Float32.of_Z 1 (-1)) 1))
    as (Hw & Hc & _ & _).
  - apply one_cell_then_store_reachable; [exact I|].
    intros m. vm_compute. discriminate.
  - reflexivity.
  - exists (mkInventory [[potion]] None (Float32.of_Z 1 (-1)) 1).
  split; [reflexivity|]. split; [exact Hw|]. split; [exact Hc|]. reflexivity.
Defined.

(** C1, counterexample. Construct a one-cell Inventory and store an item
    of category [NONE] and weight 1 in the cell: the count is 1 and the
    weight 1 while no cell is occupied. *)
Lemma store_NONE_breaks_aggregates :
  let i := mkInventory [[ghost]] None (Float32.of_Z 1 0) 1 in
  reachable any_op (one_cell_then_store ghost) ∧
  lookup_inv (InvObj L1) (one_cell_then_store ghost) = Some i ∧
  occupied (inventory_grid_ i) = [] ∧
  ¬ count_ok i ∧ ¬ weight_ok i ∧
  ¬ aggregates_always_ok.
Proof.
  intros i.
  assert (reachable any_op (one_cell_then_store ghost)) as Hreach
    by (by apply one_cell_then_store_reachable).
  assert (¬ count_ok i) as Hcount by (vm_compute; discriminate).
  repeat split; try done.
  - intros (l & Hl & Hw). apply Permutation_nil_r in Hl as ->.
    vm_compute in Hw. discriminate.
  - intros Hall. apply Hcount. by apply (Hall _ (InvObj L1) i Hreach).
Qed.

(** C10, counterexample. Move-assign the first sample Player, the
    Knight, into the second, the Squire, with a library that swaps the
    two strings on move assignment: the operation is defined, the
    destination is called Knight and has the Knight's inventory, and the
    source has the moved-from inventory and is called Squire, not the
    empty name. *)
Lemma Player_move_leaves_a_name :
  let m' := run (Player_move_assign "Squire" L2 L1) sample_mem in
  Player_move_assign "Squire" L2 L1 sample_mem = Some (tt, m') ∧
  players m' !! L2 = Some (mkPlayer "Knight" (Inventory_ctor grid2x2 (Some L2))) ∧
  players m' !! L1 = Some (mkPlayer "Squire" moved_from) ∧
  lookup_name L1 m' ≠ Some "" ∧
  ¬ Player_move_empties_name.
Proof.
  intros m'.
  assert (Player_move_assign "Squire" L2 L1 sample_mem = Some (tt, m')) as Hexec
    by (vm_compute; reflexivity).
  assert (lookup_name L1 m' ≠ Some "") as Hname by (vm_compute; discriminate).
  split; [exact Hexec|]. split; [vm_compute; reflexivity|].
  split; [vm_compute; reflexivity|]. split; [exact Hname|].
  intros Hclaim. apply Hname.
  apply (Hclaim "Squire" L2 L1 sample_mem m'); [discriminate | exact Hexec].
Qed.
End examples.

(** * Further properties *)

(** ** [store] and [at] together *)

Section store_and_at.
Implicit Types (this : Inventory) (row col : nat) (pickup c : Item.t).

(** What [at] returns is decided by the cell alone. *)
Lemma at_cell_at row col this :
  at_ row col this =
    (match cell_at row col (inventory_grid_ this) with
     | Some c => Returned c
     | None => Threw (out_of_range "Invalid inventory index.")
     end, this).
Proof.
  unfold at_, const_method.
  destruct (cell_at row col (inventory_grid_ this)) as [c|] eqn:Hc.
  - destruct (cell_at_total _ _ _ _ Hc) as [-> ->]. done.
  - destruct (invalid_index row col this) eqn:Hv; [done|].
    apply invalid_index_false in Hv as [c' Hc']. congruence.
Qed.

(** [store] returns [true] only into an empty cell within bounds. *)
Lemma store_true_inv row col pickup this this' :
  store row col pickup this = (Returned true, this') →
  ∃ c, cell_at row col (inventory_grid_ this) = Some c ∧ Item.type_ c = NONE.
Proof.
  unfold store. destruct (invalid_index row col this) eqn:Hv; [done|].
  apply invalid_index_false in Hv as [c Hc].
  destruct (cell_at_total _ _ _ _ Hc) as [_ ->].
  case_decide as Hocc; [done|]. intros _. exists c. split; [done|].
  by destruct (Item.type_ c); try done; destruct Hocc.
Qed.

(** X1. After a [store] that returned [true], [at] at the same position
    returns the stored item, and [at] at any other position returns or
    throws exactly what it did before. *)
Theorem store_then_at this row col pickup this' :
  store row col pickup this = (Returned true, this') →
  at_ row col this' = (Returned pickup, this') ∧
  ∀ row' col', (row', col') ≠ (row, col) →
    (at_ row' col' this').1 = (at_ row' col' this).1.
Proof.
  intros Hstore. destruct (store_true_inv _ _ _ _ _ Hstore) as (c & Hc & Hnone).
  rewrite (store_into_empty _ _ _ _ c Hc Hnone) in Hstore.
  injection Hstore as <-. split.
  - rewrite at_cell_at. simpl.
    rewrite cell_at_assign by (by rewrite Hc). by rewrite decide_True.
  - intros row' col' Hne. rewrite !at_cell_at. simpl.
    rewrite cell_at_assign by (by rewrite Hc).
    rewrite decide_False; [done | intros [-> ->]; done].
Qed.

Lemma shape_assign row col pickup g :
  shape (alter (λ r, <[col := pickup]> r) row g) = shape g.
Proof.
  unfold shape. rewrite (list_fmap_alter length _ id).
  - by apply list_alter_id.
  - apply Forall_forall. intros r _. apply length_insert.
Qed.

Lemma store_shape row col pickup this :
  shape (inventory_grid_ (store row col pickup this).2) = shape (inventory_grid_ this).
Proof.
  unfold store. destruct (invalid_index row col this); [done|].
  case_decide; [done|]. apply shape_assign.
Qed.

Lemma invalid_index_shape row col this this' :
  shape (inventory_grid_ this') = shape (inventory_grid_ this) →
  invalid_index row col this' = invalid_index row col this.
Proof.
  intros Hshape. unfold invalid_index.
  pose proof (f_equal length Hshape) as Hlen.
  unfold shape in Hlen. rewrite !length_fmap in Hlen.
  rewrite Hlen. case_bool_decide as Hrow; [done|].
  apply Nat.nle_gt in Hrow.
  destruct (lookup_lt_is_Some_2 (inventory_grid_ this) row Hrow) as [r Hr].
  destruct (lookup_lt_is_Some_2 (inventory_grid_ this') row) as [r' Hr']; [lia|].
  rewrite (list_lookup_total_correct _ _ _ Hr), (list_lookup_total_correct _ _ _ Hr').
  assert (shape (inventory_grid_ this') !! row = Some (length r')) as H1
    by (unfold shape; by rewrite list_lookup_fmap, Hr').
  assert (shape (inventory_grid_ this) !! row = Some (length r)) as H2
    by (unfold shape; by rewrite list_lookup_fmap, Hr).
  rewrite Hshape in H1. by replace (length r') with (length r) by congruence.
Qed.

Lemma threw_at row col this :
  threw (at_ row col this) ↔ invalid_index row col this = true.
Proof.
  unfold threw, at_, const_method. simpl.
  destruct (invalid_index row col this); split; try done; eauto.
  by intros [e He].
Qed.

Lemma threw_store row col pickup this :
  threw (store row col pickup this) ↔ invalid_index row col this = true.
Proof.
  unfold threw, store.
  destruct (invalid_index row col this); split; try done; simpl; eauto.
  intros [e He]. by case_decide.
Qed.

(** X2. [store] never changes the shape of the grid, whatever it returns:
    the number of rows and the length of every row stay, so the positions
    at which [at] and [store] throw are the same before and after, and the
    equipped pointer is as before. *)
Theorem store_keeps_shape this row col pickup :
  shape (inventory_grid_ (store row col pickup this).2) = shape (inventory_grid_ this) ∧
  equipped_ (store row col pickup this).2 = equipped_ this ∧
  ∀ row' col' pickup',
    (threw (at_ row' col' (store row col pickup this).2) ↔ threw (at_ row' col' this)) ∧
    (threw (store row' col' pickup' (store row col pickup this).2) ↔
       threw (store row' col' pickup' this)).
Proof.
  split; [apply store_shape|]. split; [apply store_equipped_|].
  intros row' col' pickup'.
  pose proof (invalid_index_shape row' col' this _ (store_shape row col pickup this)) as Hv.
  by rewrite !threw_at, !threw_store, Hv.
Qed.

(** One [store] leaves an occupied cell alone. *)
Lemma store_keeps_occupied this row col pickup row' col' c :
  cell_at row' col' (inventory_grid_ this) = Some c →
  Item.type_ c ≠ NONE →
  cell_at row' col' (inventory_grid_ (store row col pickup this).2) = Some c.
Proof.
  intros Hc Hocc. unfold store.
  destruct (invalid_index row col this) eqn:Hv; [done|].
  case_decide as Hocc'; [done|]. simpl.
  apply invalid_index_false in Hv as [c0 Hc0].
  rewrite cell_at_assign by (by rewrite Hc0).
  rewrite decide_False; [done|]. intros [-> ->].
  destruct (cell_at_total _ _ _ _ Hc0) as [_ Hcell]. rewrite Hcell in Hocc'.
  congruence.
Qed.

(** X3. [store] never overwrites: a cell that holds an item whose category
    is not [NONE] still holds that item after any series of [store] calls,
    at any positions and with any items. *)
Theorem stored_item_stays this calls row col c :
  cell_at row col (inventory_grid_ this) = Some c →
  Item.type_ c ≠ NONE →
  cell_at row col (inventory_grid_ (store_all calls this)) = Some c ∧
  at_ row col (store_all calls this) = (Returned c, store_all calls this).
Proof.
  intros Hc Hocc.
  assert (cell_at row col (inventory_grid_ (store_all calls this)) = Some c) as Hstays.
  { revert this Hc. induction calls as [|[[r k] pickup] calls IH]; intros this Hc.
    - done.
    - apply IH. by apply store_keeps_occupied. }
  split; [done|]. by rewrite at_cell_at, Hstays.
Qed.
End store_and_at.

(** ** The special members together *)

Section members_together.
Implicit Types (m : Mem) (this rhs : iref) (t r i : Inventory).

(** X4. Assignment to a different object is destruction followed by
    construction in place: copy assignment does what the destructor and
    then the copy constructor do, move assignment what the destructor and
    then the move constructor do, also when the outcome is undefined. *)
Theorem assignment_is_destroy_then_construct this rhs m :
  this ≠ rhs →
  Inventory_copy_assign this rhs m =
    (Inventory_dtor this;;
     let* i := Inventory_copy_ctor rhs in emplace this i) m ∧
  Inventory_move_assign this rhs m =
    (Inventory_dtor this;;
     let* i := Inventory_move_ctor rhs in emplace this i) m.
Proof.
  intros Hne.
  rewrite Inventory_copy_assign_eq, Inventory_move_assign_eq by done.
  unfold bind. rewrite Inventory_dtor_eq.
  destruct (lookup_inv this m) as [t|] eqn:Ht; [|done].
  destruct (decide (deletable (equipped_ t) m)) as [Hd|Hd].
  2: { by destruct (lookup_inv rhs m). }
  rewrite Inventory_copy_ctor_eq, Inventory_move_ctor_eq. mem_simpl.
  destruct (lookup_inv rhs m) as [r|] eqn:Hr; [|done]. split.
  - destruct (cloned _ _) as [[e h]|]; [|done].
    unfold emplace. mem_simpl. rewrite Ht. simpl. do 2 f_equal.
    mem_ext this rhs; by rewrite ?Ht, ?Hr.
  - unfold emplace. mem_simpl. rewrite Ht. simpl. do 2 f_equal.
    mem_ext this rhs; by rewrite ?Ht, ?Hr.
Qed.

(** X5. Moving out and back restores: after an Inventory is move
    constructed from [rhs] and [rhs] is then move assigned from the new
    object, [rhs] has its state again, the new object is in the moved-from
    state, and the free store and every other object are as at the start;
    no step of it is undefined. *)
Theorem move_round_trip rhs m r :
  lookup_inv rhs m = Some r →
  ∃ m1 this m2 m3,
    Inventory_move_ctor rhs m = Some (r, m1) ∧
    place_Inventory r m1 = Some (this, m2) ∧
    Inventory_move_assign rhs this m2 = Some (tt, m3) ∧
    lookup_inv rhs m3 = Some r ∧
    lookup_inv this m3 = Some moved_from ∧
    lookup_inv this m = None ∧
    free_store m3 = free_store m ∧
    (∀ b, b ≠ this → lookup_inv b m3 = lookup_inv b m).
Proof.
  intros Hr. rewrite Inventory_move_ctor_eq, Hr.
  set (m1 := update_inv rhs moved_from m).
  destruct (place_Inventory_eq r m1) as (k & Hk & Hplace).
  assert (lookup_inv (InvObj k) m = None) as Hfresh.
  { destruct (decide (InvObj k = rhs)) as [<-|Hne].
    - subst m1. mem_simpl in Hk. by destruct (lookup_inv (InvObj k) m).
    - subst m1. by mem_simpl in Hk. }
  assert (rhs ≠ InvObj k) as Hne by (intros ->; congruence).
  set (m2 := mkMem _ _ _) in Hplace.
  assert (lookup_inv (InvObj k) m2 = Some r) as Hthis2
    by (subst m2; by rewrite lookup_inv_placed, decide_True).
  assert (lookup_inv rhs m2 = Some moved_from) as Hrhs2.
  { subst m2. rewrite lookup_inv_placed, decide_False by done.
    subst m1. mem_simpl. by rewrite Hr. }
  assert (∀ b, b ≠ InvObj k → b ≠ rhs → lookup_inv b m2 = lookup_inv b m) as Hothers2.
  { intros b ??. subst m2. rewrite lookup_inv_placed, decide_False by done.
    subst m1. by mem_simpl. }
  assert (free_store m2 = free_store m) as Hfs2 by (subst m2 m1; by mem_simpl).
  clearbody m2.
  eexists _, _, _, _. split; [done|]. split; [exact Hplace|].
  rewrite Inventory_move_assign_eq, Hrhs2, Hthis2, decide_True by done.
  split; [done|]. mem_simpl. rewrite Hrhs2, Hthis2. simpl.
  repeat split; try done.
  intros b Hb. destruct (decide (b = rhs)) as [->|Hbr]; mem_simpl.
  - by rewrite Hrhs2, Hr.
  - by apply Hothers2.
Qed.

(** X6. Under exclusive ownership no special member of two live
    Inventories is undefined: copy and move construction, copy and move
    assignment (also of an object to itself), [discardEquipped] and the
    destructor all run to their end. *)
Theorem owned_members_defined m this rhs t r :
  owns_ok m →
  lookup_inv this m = Some t →
  lookup_inv rhs m = Some r →
  is_Some (Inventory_copy_ctor rhs m) ∧
  is_Some (Inventory_move_ctor rhs m) ∧
  is_Some (Inventory_copy_assign this rhs m) ∧
  is_Some (Inventory_move_assign this rhs m) ∧
  is_Some (discardEquipped this m) ∧
  is_Some (Inventory_dtor this m).
Proof.
  intros Hm Ht Hr.
  assert (deletable (equipped_ t) m) as Hdt by (by apply (proj1 Hm this)).
  assert (∀ h, (∀ l, equipped_ r = Some l → is_Some (h !! l)) →
               is_Some (cloned (equipped_ r) h)) as Hclone.
  { intros h Hlive. unfold cloned. destruct (equipped_ r) as [l|]; [|done].
    by destruct (Hlive l eq_refl) as [v ->]. }
  split; [|split; [|split; [|split; [|split]]]].
  - rewrite Inventory_copy_ctor_eq, Hr.
    destruct (Hclone (free_store m)) as [[e h] ->]; [|done].
    intros l Hl. by eapply owns_ok_live.
  - by rewrite Inventory_move_ctor_eq, Hr.
  - destruct (decide (this = rhs)) as [->|Hne].
    { by rewrite Inventory_copy_assign_self. }
    rewrite Inventory_copy_assign_eq, Ht, Hr, decide_True by done.
    destruct (Hclone (freed (equipped_ t) (free_store m))) as [[e h] ->]; [|done].
    intros l Hl. by eapply (live_after_freed m this t rhs r).
  - destruct (decide (this = rhs)) as [->|Hne].
    { by rewrite Inventory_move_assign_self. }
    by rewrite Inventory_move_assign_eq, Ht, Hr, decide_True.
  - rewrite discardEquipped_eq, Ht. destruct (equipped_ t) eqn:He; [|done].
    by rewrite decide_True.
  - by rewrite Inventory_dtor_eq, Ht, decide_True.
Qed.
End members_together.

(** ** Who holds the Items of the free store *)

Section leaks.
Implicit Types (m M : Mem) (this rhs a b : iref) (i t r : Inventory) (l : loc).

Lemma cloned_inv p h0 e h :
  cloned p h0 = Some (e, h) →
  (e = None ∧ h = h0) ∨
  (∃ l' v, e = Some l' ∧ h = <[l' := v]> h0 ∧ h0 !! l' = None).
Proof.
  unfold cloned. destruct p as [lp|].
  - destruct (h0 !! lp) as [v|]; [|done]. intros [= <- <-]. right.
    eexists _, _. split; [done|]. split; [done|]. apply not_elem_of_dom, is_fresh.
  - intros [= <- <-]. by left.
Qed.

Lemma live_freed p h l :
  is_Some (freed p h !! l) → is_Some (h !! l) ∧ p ≠ Some l.
Proof.
  destruct p as [lp|]; simpl; [|done].
  intros [v Hv]. apply lookup_delete_Some in Hv as [Hne Hv].
  split; [by eexists | congruence].
Qed.

Lemma keeps_holders_refl m : keeps_holders m m.
Proof. intros l Hl. split; [by left | done]. Qed.

Lemma keeps_holders_trans m m1 m' :
  keeps_holders m m1 → keeps_holders m1 m' → keeps_holders m m'.
Proof.
  intros H1 H2 l Hl. destruct (H2 l Hl) as [[Hl1 | Hheld] Hkeep].
  - destruct (H1 l Hl1) as [[Hl0 | Hheld1] Hkeep1].
    + split; [by left | by intros ?; apply Hkeep, Hkeep1].
    + split; [right; by apply Hkeep | by intros ?; apply Hkeep].
  - by split; [right|].
Qed.

Lemma keeps_holders_no_garbage m m' :
  keeps_holders m m' → no_garbage m → no_garbage m'.
Proof.
  intros Hkeep Hm l Hl. destruct (Hkeep l Hl) as [[Hl0 | Hheld] Hstay]; [|done].
  by apply Hstay, Hm.
Qed.

(** One Inventory takes a new value, in a memory [M] that has the
    Inventories of [m]; every Item live in [M] is the one the new value
    holds, or was live before and not held by this Inventory. *)
Lemma keeps_holders_update this t i m M :
  lookup_inv this m = Some t →
  (∀ b, lookup_inv b M = lookup_inv b m) →
  (∀ l, is_Some (free_store M !! l) →
        equipped_ i = Some l ∨ (is_Some (free_store m !! l) ∧ equipped_ t ≠ Some l)) →
  keeps_holders m (update_inv this i M).
Proof.
  intros Ht Hsame Hlive l Hl. mem_simpl in Hl.
  destruct (Hlive l Hl) as [Hi | [Hold Hnot]].
  - assert (held l (update_inv this i M)) as Hheld.
    { exists this, i. split; [|done]. mem_simpl. by rewrite Hsame, Ht. }
    by split; [right|].
  - split; [by left|]. intros (b & ib & Hb & He).
    exists b, ib. split; [|done].
    rewrite lookup_update_ne, Hsame; [done|]. intros <-. congruence.
Qed.

(** A new object is placed in [m1]; every Item live there is the one it
    holds, or was live in [m], and what was held in [m] is held by the new
    object or still held in [m1]. *)
Lemma keeps_holders_place_Inventory i m m1 this m' :
  (∀ l, is_Some (free_store m1 !! l) →
        (is_Some (free_store m !! l) ∨ equipped_ i = Some l) ∧
        (held l m → equipped_ i = Some l ∨ held l m1)) →
  place_Inventory i m1 = Some (this, m') → keeps_holders m m'.
Proof.
  intros Hlive Hplace. destruct (place_Inventory_eq i m1) as (k & Hk & Heq).
  rewrite Heq in Hplace. injection Hplace as _ <-. intros l Hl.
  destruct (Hlive l Hl) as [Hnew Hstay].
  assert (equipped_ i = Some l →
          held l (mkMem (free_store m1) (<[k := i]> (inventories m1)) (players m1)))
    as Hi.
  { intros He. exists (InvObj k), i. by rewrite lookup_inv_placed, decide_True. }
  split.
  - destruct Hnew as [?|He]; [by left | right; by apply Hi].
  - intros Hheld. destruct (Hstay Hheld) as [He | (b & ib & Hb & He)]; [by apply Hi|].
    exists b, ib. rewrite lookup_inv_placed, decide_False; [done|].
    intros ->. congruence.
Qed.

Lemma keeps_holders_place_Player pl m m1 p m' :
  (∀ l, is_Some (free_store m1 !! l) →
        (is_Some (free_store m !! l) ∨ equipped_ (inventory_ pl) = Some l) ∧
        (held l m → equipped_ (inventory_ pl) = Some l ∨ held l m1)) →
  place_Player pl m1 = Some (p, m') → keeps_holders m m'.
Proof.
  intros Hlive Hplace. unfold place_Player in Hplace. injection Hplace as _ <-.
  assert (lookup_inv (inventory_of (fresh (dom (players m1)))) m1 = None) as Hk.
  { unfold lookup_inv.
    by rewrite (proj1 (not_elem_of_dom (players m1) _) (is_fresh (dom (players m1)))). }
  intros l Hl. destruct (Hlive l Hl) as [Hnew Hstay].
  assert (equipped_ (inventory_ pl) = Some l →
          held l (mkMem (free_store m1) (inventories m1)
                    (<[fresh (dom (players m1)) := pl]> (players m1)))) as Hi.
  { intros He. exists (inventory_of (fresh (dom (players m1)))), (inventory_ pl).
    by rewrite lookup_inv_placed_Player, decide_True. }
  split.
  - destruct Hnew as [?|He]; [by left | right; by apply Hi].
  - intros Hheld. destruct (Hstay Hheld) as [He | (b & ib & Hb & He)]; [by apply Hi|].
    exists b, ib. rewrite lookup_inv_placed_Player, decide_False; [done|].
    intros ->. congruence.
Qed.

(** After copy construction: the clone is the only new Item. *)
Lemma cloned_placeable m p e h :
  cloned p (free_store m) = Some (e, h) →
  ∀ l, is_Some (free_store (set_free_store h m) !! l) →
       (is_Some (free_store m !! l) ∨ e = Some l) ∧
       (held l m → e = Some l ∨ held l (set_free_store h m)).
Proof.
  intros Hclone l Hl. mem_simpl in Hl.
  assert (held l m → e = Some l ∨ held l (set_free_store h m)) as Hstay.
  { intros (b & ib & Hb & He). right. exists b, ib. by mem_simpl. }
  split; [|done].
  destruct (cloned_inv _ _ _ _ Hclone) as [[-> ->] | (l' & v & -> & -> & Hfresh)].
  - by left.
  - apply lookup_insert_is_Some in Hl as [<- | [Hne Hl]]; [by right | by left].
Qed.

(** After move construction from [rhs]: what [rhs] held, the new object
    is about to hold. *)
Lemma moved_out_placeable rhs r m M :
  lookup_inv rhs m = Some r →
  (∀ b, lookup_inv b M = lookup_inv b m) → free_store M = free_store m →
  ∀ l, is_Some (free_store (update_inv rhs moved_from M) !! l) →
       (is_Some (free_store m !! l) ∨ equipped_ r = Some l) ∧
       (held l m → equipped_ r = Some l ∨ held l (update_inv rhs moved_from M)).
Proof.
  intros Hr Hsame Hfs l Hl. mem_simpl in Hl. rewrite Hfs in Hl.
  split; [by left|]. intros (b & ib & Hb & He).
  destruct (decide (b = rhs)) as [->|Hne].
  - left. congruence.
  - right. exists b, ib. by rewrite lookup_update_ne, Hsame.
Qed.

(** The state of [rhs] moves to [this], which deletes its own Item. *)
Lemma keeps_holders_move this rhs t r m M :
  this ≠ rhs →
  lookup_inv this m = Some t → lookup_inv rhs m = Some r →
  free_store M = freed (equipped_ t) (free_store m) →
  lookup_inv this M = Some r →
  (∀ b, b ≠ this → b ≠ rhs → lookup_inv b M = lookup_inv b m) →
  keeps_holders m M.
Proof.
  intros Hne Ht Hr Hfs Hthis Hother l Hl. rewrite Hfs in Hl.
  apply live_freed in Hl as [Hl Hnot]. split; [by left|].
  intros (b & ib & Hb & He).
  destruct (decide (b = rhs)) as [->|Hbr].
  - exists this, r. split; [done | congruence].
  - exists b, ib. split; [|done]. rewrite Hother; [done | | done].
    intros ->. congruence.
Qed.

Lemma keeps_holders_dtor this m m' :
  Inventory_dtor this m = Some (tt, m') →
  keeps_holders m m' ∧ ∃ t', lookup_inv this m' = Some t' ∧ equipped_ t' = None.
Proof.
  rewrite Inventory_dtor_eq.
  destruct (lookup_inv this m) as [t|] eqn:Ht; [|done].
  case_decide; [|done]. intros [= <-]. split.
  - apply (keeps_holders_update this t _ m); try done.
    intros l Hl. mem_simpl in Hl. right. by apply live_freed.
  - eexists. mem_simpl. by rewrite Ht.
Qed.

(** An object whose pointer is null goes away. *)
Lemma keeps_holders_remove this t' m M :
  lookup_inv this m = Some t' → equipped_ t' = None →
  free_store M = free_store m →
  (∀ b, b ≠ this → lookup_inv b M = lookup_inv b m) →
  keeps_holders m M.
Proof.
  intros Ht He Hfs Hother l Hl. rewrite Hfs in Hl. split; [by left|].
  intros (b & ib & Hb & Heb).
  exists b, ib. split; [|done]. rewrite Hother; [done|]. intros ->. congruence.
Qed.

(** X7. The members let no Item get out of reach.  After any defined
    statement but a bare [new] and an [equip] on an Inventory that has
    another Item equipped, every Item of the free store that is new is
    equipped by some Inventory, and every Item that some Inventory had
    equipped and that is still there is equipped by some Inventory; so if
    every Item was equipped by some Inventory before the statement, every
    Item is after it.  Copies, moves, [discardEquipped] and destruction
    release or hand over what they own. *)
Theorem members_keep_holders o m m' :
  looks_after o m →
  exec o m = Some (tt, m') →
  keeps_holders m m' ∧ (no_garbage m → no_garbage m').
Proof.
  intros Hmanaged Hexec.
  enough (keeps_holders m m') as Hkeep
    by (split; [done | by apply keeps_holders_no_garbage]).
  destruct o as
    [ v | p v | p | items equipped | this row col | this row col pickup | this p | this
    | rhs | rhs | this rhs | this rhs | k
    | name inventory | rhs | remains rhs | this rhs | remains this rhs | p ];
    simpl in Hexec, Hmanaged; try (by destruct Hmanaged).
  - unfold assign_Item in Hexec. destruct p as [l0|]; [|done].
    destruct (free_store m !! l0) eqn:Hl0; [|done]. injection Hexec as <-.
    intros l Hl. mem_simpl in Hl.
    assert (is_Some (free_store m !! l)) as Hl'.
    { apply lookup_insert_is_Some in Hl as [<- | [_ Hl]]; [by eexists | done]. }
    split; [by left|]. intros (b & ib & Hb & He). exists b, ib. by mem_simpl.
  - unfold delete_Item in Hexec.
    destruct p as [l0|]; [|injection Hexec as <-; apply keeps_holders_refl].
    destruct (free_store m !! l0); [|done]. injection Hexec as <-.
    intros l Hl. mem_simpl in Hl. apply lookup_delete_is_Some in Hl as [_ Hl].
    split; [by left|]. intros (b & ib & Hb & He). exists b, ib. by mem_simpl.
  - apply bind_Some_inv in Hexec as (r0 & m1 & Hop & [= <-]).
    eapply (keeps_holders_place_Inventory _ m m); [|done]. intros l Hl.
    split; [by left | by right].
  - apply bind_Some_inv in Hexec as (res & m1 & Hop & [= <-]).
    rewrite call_eq in Hop. destruct (lookup_inv this m) as [t|] eqn:Ht; [|done].
    injection Hop as _ <-. apply (keeps_holders_update this t _ m); try done.
    intros l Hl. simpl. destruct (decide (equipped_ t = Some l)); [by left | by right].
  - apply bind_Some_inv in Hexec as (res & m1 & Hop & [= <-]).
    rewrite call_eq in Hop. destruct (lookup_inv this m) as [t|] eqn:Ht; [|done].
    injection Hop as _ <-. apply (keeps_holders_update this t _ m); try done.
    intros l Hl. rewrite store_equipped_.
    destruct (decide (equipped_ t = Some l)); [by left | by right].
  - apply bind_Some_inv in Hexec as (res & m1 & Hop & [= <-]).
    rewrite call_eq in Hop. destruct (lookup_inv this m) as [t|] eqn:Ht; [|done].
    injection Hop as _ <-. apply (keeps_holders_update this t _ m); try done.
    intros l Hl. simpl. destruct (Hmanaged t eq_refl) as [Hnone | Hsame].
    + right. split; [done | congruence].
    + destruct (decide (p = Some l)); [by left | right; split; [done | congruence]].
  - rewrite discardEquipped_eq in Hexec.
    destruct (lookup_inv this m) as [t|] eqn:Ht; [|done].
    destruct (equipped_ t) as [lt|] eqn:He;
      [|injection Hexec as <-; apply keeps_holders_refl].
    case_decide; [|done]. injection Hexec as <-.
    apply (keeps_holders_update this t _ m); try done.
    intros l Hl. mem_simpl in Hl. right. rewrite He. by apply live_freed.
  - apply bind_Some_inv in Hexec as (i & m1 & Hop & Hexec).
    apply bind_Some_inv in Hexec as (r0 & m2 & Hplace & [= <-]).
    rewrite Inventory_copy_ctor_eq in Hop.
    destruct (lookup_inv rhs m) as [r|] eqn:Hr; [|done].
    destruct (cloned _ _) as [[e h]|] eqn:Hclone; [|done]. injection Hop as <- <-.
    eapply keeps_holders_place_Inventory; [|exact Hplace].
    by eapply cloned_placeable.
  - apply bind_Some_inv in Hexec as (i & m1 & Hop & Hexec).
    apply bind_Some_inv in Hexec as (r0 & m2 & Hplace & [= <-]).
    rewrite Inventory_move_ctor_eq in Hop.
    destruct (lookup_inv rhs m) as [r|] eqn:Hr; [|done]. injection Hop as <- <-.
    eapply keeps_holders_place_Inventory; [|exact Hplace].
    by apply (moved_out_placeable rhs r m m).
  - destruct (decide (this = rhs)) as [->|Hne].
    { rewrite Inventory_copy_assign_self in Hexec. injection Hexec as <-.
      apply keeps_holders_refl. }
    rewrite Inventory_copy_assign_eq in Hexec by done.
    destruct (lookup_inv this m) as [t|] eqn:Ht; [|done].
    destruct (lookup_inv rhs m) as [r|] eqn:Hr; [|done].
    case_decide; [|done].
    destruct (cloned _ _) as [[e h]|] eqn:Hclone; [|done]. injection Hexec as <-.
    apply (keeps_holders_update this t _ m); try done; try (by intros; mem_simpl).
    intros l Hl. mem_simpl in Hl. simpl.
    destruct (cloned_inv _ _ _ _ Hclone) as [[-> ->] | (l' & v & -> & -> & Hfresh)].
    + right. by apply live_freed.
    + apply lookup_insert_is_Some in Hl as [<- | [_ Hl]]; [by left|].
      right. by apply live_freed.
  - destruct (decide (this = rhs)) as [->|Hne].
    { rewrite Inventory_move_assign_self in Hexec. injection Hexec as <-.
      apply keeps_holders_refl. }
    rewrite Inventory_move_assign_eq in Hexec by done.
    destruct (lookup_inv this m) as [t|] eqn:Ht; [|done].
    destruct (lookup_inv rhs m) as [r|] eqn:Hr; [|done].
    case_decide; [|done]. injection Hexec as <-.
    apply (keeps_holders_move this rhs t r m); try done; mem_simpl; rewrite ?Ht; try done.
    intros b ??. by mem_simpl.
  - apply bind_Some_inv in Hexec as ([] & m1 & Hdtor & [= <-]).
    destruct (keeps_holders_dtor _ _ _ Hdtor) as (Hm1 & t' & Ht' & He').
    apply (keeps_holders_trans m m1); [done|].
    apply (keeps_holders_remove (InvObj k) t' m1); try done.
    intros [k'|q] Hb; unfold lookup_inv; simpl; [|done].
    apply lookup_delete_ne. congruence.
  - apply bind_Some_inv in Hexec as (pl & m1 & Hop & Hexec).
    apply bind_Some_inv in Hexec as (q & m2 & Hplace & [= <-]).
    rewrite Player_ctor_eq in Hop.
    destruct (lookup_inv inventory m) as [r|] eqn:Hr; [|done].
    destruct (cloned _ _) as [[e h]|] eqn:Hclone; [|done]. injection Hop as <- <-.
    eapply keeps_holders_place_Player; [|exact Hplace].
    by eapply cloned_placeable.
  - apply bind_Some_inv in Hexec as (pl & m1 & Hop & Hexec).
    apply bind_Some_inv in Hexec as (q & m2 & Hplace & [= <-]).
    rewrite Player_copy_ctor_eq in Hop.
    destruct (players m !! rhs) as [pr|] eqn:Hpr; [|done].
    destruct (cloned _ _) as [[e h]|] eqn:Hclone; [|done]. injection Hop as <- <-.
    eapply keeps_holders_place_Player; [|exact Hplace].
    by eapply cloned_placeable.
  - apply bind_Some_inv in Hexec as (pl & m1 & Hop & Hexec).
    apply bind_Some_inv in Hexec as (q & m2 & Hplace & [= <-]).
    rewrite Player_move_ctor_eq in Hop.
    destruct (players m !! rhs) as [pr|] eqn:Hpr; [|done]. injection Hop as <- <-.
    destruct (players_lookup_Some _ _ _ Hpr) as [_ Hir].
    eapply keeps_holders_place_Player; [|exact Hplace].
    apply (moved_out_placeable (inventory_of rhs) (inventory_ pr) m); try done.
    by intros; mem_simpl.
  - destruct (decide (this = rhs)) as [->|Hne].
    { unfold Player_copy_assign in Hexec.
      rewrite decide_False in Hexec by (by intros []). injection Hexec as <-.
      apply keeps_holders_refl. }
    rewrite Player_copy_assign_eq in Hexec by done.
    destruct (players m !! this) as [pt|] eqn:Hpt; [|done].
    destruct (players m !! rhs) as [pr|] eqn:Hpr; [|done].
    case_decide; [|done].
    destruct (cloned _ _) as [[e h]|] eqn:Hclone; [|done]. injection Hexec as <-.
    destruct (players_lookup_Some _ _ _ Hpt) as [_ Hit].
    apply (keeps_holders_update (inventory_of this) (inventory_ pt) _ m); try done;
      try (by intros; mem_simpl).
    intros l Hl. mem_simpl in Hl. simpl.
    destruct (cloned_inv _ _ _ _ Hclone) as [[-> ->] | (l' & v & -> & -> & Hfresh)].
    + right. by apply live_freed.
    + apply lookup_insert_is_Some in Hl as [<- | [_ Hl]]; [by left|].
      right. by apply live_freed.
  - destruct (decide (this = rhs)) as [->|Hne].
    { rewrite Player_move_assign_self in Hexec. injection Hexec as <-.
      apply keeps_holders_refl. }
    rewrite Player_move_assign_eq in Hexec by done.
    destruct (players m !! this) as [pt|] eqn:Hpt; [|done].
    destruct (players m !! rhs) as [pr|] eqn:Hpr; [|done].
    case_decide; [|done]. injection Hexec as <-.
    destruct (players_lookup_Some _ _ _ Hpt) as [_ Hit].
    destruct (players_lookup_Some _ _ _ Hpr) as [_ Hir].
    apply (keeps_holders_move (inventory_of this) (inventory_of rhs)
             (inventory_ pt) (inventory_ pr) m); try done; try congruence;
      mem_simpl; rewrite ?Hit; try done.
    intros b ??. by mem_simpl.
  - apply bind_Some_inv in Hexec as ([] & m1 & Hdtor & [= <-]).
    destruct (keeps_holders_dtor _ _ _ Hdtor) as (Hm1 & t' & Ht' & He').
    apply (keeps_holders_trans m m1); [done|].
    apply (keeps_holders_remove (inventory_of p) t' m1); try done.
    intros [k'|q] Hb; unfold lookup_inv; simpl; [done|].
    rewrite lookup_delete_ne; [done | congruence].
Qed.
End leaks.

(** ** Programs that keep the ownership discipline *)

Section safety.
Implicit Types (m : Mem) (this rhs : iref) (t r i : Inventory) (l : loc).

Lemma cloned_defined p h :
  (∀ l, p = Some l → is_Some (h !! l)) → is_Some (cloned p h).
Proof.
  intros Hlive. unfold cloned. destruct p as [l|]; [|done].
  by destruct (Hlive l eq_refl) as [v ->].
Qed.

Lemma Inventory_copy_ctor_defined m rhs r :
  owns_ok m → lookup_inv rhs m = Some r → is_Some (Inventory_copy_ctor rhs m).
Proof.
  intros Hm Hr. rewrite Inventory_copy_ctor_eq, Hr.
  destruct (cloned_defined (equipped_ r) (free_store m)) as [[e h] ->]; [|done].
  intros l Hl. by eapply owns_ok_live.
Qed.

Lemma Inventory_dtor_defined m this t :
  owns_ok m → lookup_inv this m = Some t → is_Some (Inventory_dtor this m).
Proof.
  intros Hm Ht. rewrite Inventory_dtor_eq, Ht, decide_True; [done|].
  by apply (proj1 Hm this).
Qed.

Lemma bind_defined {A B} (c : M A) (k : A → M B) m :
  is_Some (c m) → (∀ a m1, c m = Some (a, m1) → is_Some (k a m1)) →
  is_Some ((let* a := c in k a) m).
Proof. intros [[a m1] Hc] Hk. unfold bind. rewrite Hc. by apply Hk. Qed.

(** One statement that hands over ownership and names live objects is
    defined. *)
Lemma exec_defined o m :
  owns_ok m → hands_over o m → names_live o m → is_Some (exec o m).
Proof.
  intros Hm Hover Hlive.
  destruct o as
    [ v | p v | p | items equipped | this row col | this row col pickup | this p | this
    | rhs | rhs | this rhs | this rhs | k
    | name inventory | rhs | remains rhs | this rhs | remains this rhs | p ];
    simpl in Hover, Hlive |- *.
  - done.
  - unfold assign_Item. destruct p as [l|]; [|by destruct Hlive].
    simpl in Hlive. by destruct Hlive as [v' ->].
  - unfold delete_Item. destruct p as [l|]; [|done]. by destruct Hlive as [v' ->].
  - done.
  - destruct Hlive as [t Ht]. unfold bind. by rewrite call_eq, Ht.
  - destruct Hlive as [t Ht]. unfold bind. by rewrite call_eq, Ht.
  - destruct Hlive as [t Ht]. unfold bind. by rewrite call_eq, Ht.
  - destruct Hlive as [t Ht]. rewrite discardEquipped_eq, Ht.
    destruct (equipped_ t) as [l|] eqn:He; [|done]. rewrite decide_True; [done|].
    rewrite <-He. by apply (proj1 Hm this).
  - destruct Hlive as [r Hr]. apply bind_defined; [by eapply Inventory_copy_ctor_defined|].
    done.
  - destruct Hlive as [r Hr]. apply bind_defined; [|done].
    by rewrite Inventory_move_ctor_eq, Hr.
  - destruct Hlive as [[t Ht] [r Hr]].
    destruct (decide (this = rhs)) as [->|Hne].
    { by rewrite Inventory_copy_assign_self. }
    rewrite Inventory_copy_assign_eq, Ht, Hr, decide_True by (done || by apply (proj1 Hm this)).
    destruct (cloned_defined (equipped_ r) (freed (equipped_ t) (free_store m)))
      as [[e h] ->]; [|done].
    intros l Hl. by eapply (live_after_freed m this t rhs r).
  - destruct Hlive as [[t Ht] [r Hr]].
    destruct (decide (this = rhs)) as [->|Hne].
    { by rewrite Inventory_move_assign_self. }
    rewrite Inventory_move_assign_eq, Ht, Hr, decide_True by (done || by apply (proj1 Hm this)).
    done.
  - destruct Hlive as [t Ht]. unfold destroy_Inventory.
    apply bind_defined; [by eapply (Inventory_dtor_defined m (InvObj k))|]. done.
  - destruct Hlive as [r Hr]. apply bind_defined; [|done].
    unfold Player_ctor. apply bind_defined; [by eapply Inventory_copy_ctor_defined|]. done.
  - destruct Hlive as [pr Hpr]. destruct (players_lookup_Some _ _ _ Hpr) as [_ Hir].
    apply bind_defined; [|done]. rewrite Player_copy_ctor_eq, Hpr.
    destruct (cloned_defined (equipped_ (inventory_ pr)) (free_store m))
      as [[e h] ->]; [|done].
    intros l Hl. by eapply owns_ok_live.
  - destruct Hlive as [pr Hpr]. apply bind_defined; [|done].
    by rewrite Player_move_ctor_eq, Hpr.
  - destruct Hlive as [[pt Hpt] [pr Hpr]].
    destruct (players_lookup_Some _ _ _ Hpt) as [_ Hit].
    destruct (players_lookup_Some _ _ _ Hpr) as [_ Hir].
    destruct (decide (this = rhs)) as [->|Hne].
    { unfold Player_copy_assign. by rewrite decide_False by (by intros []). }
    rewrite Player_copy_assign_eq, Hpt, Hpr, decide_True
      by (done || by apply (proj1 Hm (inventory_of this))).
    destruct (cloned_defined (equipped_ (inventory_ pr))
                (freed (equipped_ (inventory_ pt)) (free_store m)))
      as [[e h] ->]; [|done].
    intros l Hl.
    eapply (live_after_freed m (inventory_of this) _ (inventory_of rhs)); try done.
    congruence.
  - destruct Hlive as [[pt Hpt] [pr Hpr]].
    destruct (players_lookup_Some _ _ _ Hpt) as [_ Hit].
    destruct (decide (this = rhs)) as [->|Hne].
    { by rewrite Player_move_assign_self. }
    rewrite Player_move_assign_eq, Hpt, Hpr, decide_True
      by (done || by apply (proj1 Hm (inventory_of this))).
    done.
  - destruct Hlive as [pl Hpl]. destruct (players_lookup_Some _ _ _ Hpl) as [_ Hi].
    unfold destroy_Player.
    apply bind_defined; [by eapply (Inventory_dtor_defined m (inventory_of p))|]. done.
Qed.

(** X8. A program that keeps the ownership discipline has no undefined
    behaviour: started in a memory with exclusive ownership, if every
    statement where it runs hands over ownership (gives an Inventory only
    an Item nobody holds, deletes only such Items) and names live objects
    only, the whole program runs to its end (no use of a dangling
    pointer, no second [delete]) and exclusive ownership holds again. *)
Theorem disciplined_program_defined prog m :
  owns_ok m →
  checked_run prog m →
  ∃ m', exec_all prog m = Some (tt, m') ∧ owns_ok m'.
Proof.
  revert m. induction prog as [|o prog IH]; intros m Hm Hrun.
  - by exists m.
  - destruct Hrun as (Hover & Hlive & Hrest).
    destruct (exec_defined o m Hm Hover Hlive) as [[[] m1] Hexec].
    assert (owns_ok m1) as Hm1.
    { apply (step_owns_ok hands_over m m1); [done | | done]. by exists o. }
    destruct (IH m1 Hm1 (Hrest m1 Hexec)) as (m' & Hall & Hm').
    exists m'. split; [|done]. simpl. unfold bind. by rewrite Hexec.
Qed.

(** X9. [equip] leaks: under exclusive ownership, when an Inventory that
    has an Item equipped is given another pointer, the operation is
    defined, the Item equipped until then is still on the free store,
    unchanged, and no Inventory holds it any more. *)
Theorem equip_orphans_previous m this t l v p :
  owns_ok m →
  lookup_inv this m = Some t →
  equipped_ t = Some l →
  free_store m !! l = Some v →
  p ≠ Some l →
  ∃ m', exec (Op_equip this p) m = Some (tt, m') ∧
        free_store m' !! l = Some v ∧
        unowned (Some l) m' ∧
        ¬ no_garbage m'.
Proof.
  intros Hm Ht He Hv Hp. eexists. simpl. unfold bind. rewrite call_eq, Ht. simpl.
  split; [done|]. split; [by mem_simpl|].
  assert (unowned (Some l) (update_inv this (set_equipped_ p t) m)) as Hun.
  { intros b ib l0 [= <-] Hb Heb.
    destruct (decide (b = this)) as [->|Hne]; mem_simpl in Hb.
    - rewrite Ht in Hb. simpl in Hb. injection Hb as <-. simpl in Heb. congruence.
    - apply Hne. by eapply (proj2 Hm b this ib t l). }
  split; [done|]. intros Hng.
  destruct (Hng l) as (b & ib & Hb & Heb); [mem_simpl; by eexists|].
  by apply (Hun b ib l).
Qed.

(** X10. A temporary copy leaves no trace: copy-constructing an Inventory
    from a live one whose equipped pointer is null or live and then
    destroying the copy is defined and gives back the memory exactly as
    it was, free store included. *)
Theorem temporary_copy_leaves_no_trace m rhs r :
  lookup_inv rhs m = Some r →
  deletable (equipped_ r) m →
  temporary_copy rhs m = Some (tt, m).
Proof.
  intros Hr Hd. unfold temporary_copy, bind at 1. rewrite Inventory_copy_ctor_eq, Hr.
  assert (inventories m !! fresh (dom (inventories m)) = None) as Hk
    by apply not_elem_of_dom, is_fresh.
  unfold bind at 1, place_Inventory, destroy_Inventory.
  destruct (equipped_ r) as [l|] eqn:He; simpl in Hd |- *.
  - destruct Hd as [v Hv]. rewrite Hv. simpl.
    assert (free_store m !! fresh (dom (free_store m)) = None) as Hl
      by apply not_elem_of_dom, is_fresh.
    unfold bind. rewrite Inventory_dtor_eq. unfold lookup_inv at 1. simpl.
    rewrite lookup_insert_eq. simpl. rewrite decide_True.
    2: { simpl. rewrite lookup_insert_eq. by eexists. }
    simpl. do 2 f_equal. destruct m as [h objs ps]. simpl in *.
    unfold set_free_store, update_inv. simpl.
    by rewrite delete_insert_id, delete_alter_eq, delete_insert_id.
  - unfold bind. rewrite Inventory_dtor_eq. unfold lookup_inv at 1. simpl.
    rewrite lookup_insert_eq. simpl.
    do 2 f_equal. destruct m as [h objs ps]. simpl in *.
    unfold set_free_store, update_inv. simpl.
    by rewrite delete_alter_eq, delete_insert_id.
Qed.
End safety.

(** ** Copies of a Player *)

Section player_copies.
Implicit Types (m : Mem) (this rhs p : loc) (pl pt pr : Player) (r : Inventory).

Lemma cloned_deep_copy r h0 :
  (∀ l, equipped_ r = Some l → is_Some (h0 !! l)) →
  ∃ e h, cloned (equipped_ r) h0 = Some (e, h) ∧
         deep_copy_of (set_equipped_ e r) r h0 h.
Proof.
  intros Hlive. unfold deep_copy_of. destruct (equipped_ r) as [l|] eqn:He.
  - destruct (Hlive l eq_refl) as [v Hv].
    destruct (cloned_live l h0 v Hv) as (l' & Hclone & Hne & Hfresh).
    exists (Some l'), (<[l' := v]> h0). split; [done|].
    split; [done|]. split; [done|]. split; [done|]. by exists l', v.
  - by exists None, h0.
Qed.

(** X11. [Player(name, inventory)] gives a Player with the given name and
    a deep copy of the Inventory passed: same grid, weight and count, and
    a new Item equal to the one equipped, if there is one.  No existing
    object is changed, [getName] of the new Player returns the name and
    [getInventoryRef] designates the copy. *)
Theorem Player_ctor_copies_deep name (inventory : iref) m r :
  lookup_inv inventory m = Some r →
  deletable (equipped_ r) m →
  ∃ pl m1 p m',
    Player_ctor name inventory m = Some (pl, m1) ∧
    place_Player pl m1 = Some (p, m') ∧
    deep_copy_of (inventory_ pl) r (free_store m) (free_store m') ∧
    getName p m' = Some (name, m') ∧
    lookup_inv (getInventoryRef p) m' = Some (inventory_ pl) ∧
    getInventoryRef p ≠ inventory ∧
    (∀ b, is_Some (lookup_inv b m) → lookup_inv b m' = lookup_inv b m).
Proof.
  intros Hr Hd.
  destruct (cloned_deep_copy r (free_store m)) as (e & h & Hclone & Hdeep).
  { intros l He. unfold deletable in Hd. by rewrite He in Hd. }
  rewrite Player_ctor_eq, Hr, Hclone.
  set (m1 := set_free_store h m).
  assert (players m1 !! fresh (dom (players m1)) = None) as Hfresh
    by apply not_elem_of_dom, is_fresh.
  exists (mkPlayer name (set_equipped_ e r)), m1, (fresh (dom (players m1))).
  eexists. split; [done|]. split; [done|]. simpl.
  split; [done|]. split; [|split; [|split]].
  - unfold getName, rd_name, lookup_name. simpl. by rewrite lookup_insert_eq.
  - unfold getInventoryRef, lookup_inv. simpl. by rewrite lookup_insert_eq.
  - intros <-. unfold getInventoryRef, lookup_inv in Hr. simpl in Hr.
    change (players m) with (players m1) in Hr. by rewrite Hfresh in Hr.
  - intros b Hb. rewrite (lookup_inv_placed_Player _ _ m1).
    rewrite decide_False; [by unfold m1; mem_simpl|].
    intros ->. unfold lookup_inv in Hb. simpl in Hb.
    change (players m) with (players m1) in Hb. rewrite Hfresh in Hb.
    by destruct Hb.
Qed.

(** X12. A copy of a Player is deep.  The copy constructor gives a Player
    with the source's name and a deep copy of its Inventory, and changes
    no existing object; copy assignment to a different Player releases
    the Item that Player had equipped, gives it the source's name and a
    deep copy of the source's Inventory and leaves the source and every
    third Player as they were; copy assignment of a Player to itself does
    nothing. *)
Theorem Player_copy_is_deep rhs m pr :
  players m !! rhs = Some pr →
  deletable (equipped_ (inventory_ pr)) m →
  (∃ pl m1,
     Player_copy_ctor rhs m = Some (pl, m1) ∧
     name_ pl = name_ pr ∧
     deep_copy_of (inventory_ pl) (inventory_ pr) (free_store m) (free_store m1) ∧
     inventories m1 = inventories m ∧
     players m1 = players m) ∧
  (∀ this pt,
     this ≠ rhs →
     players m !! this = Some pt →
     deletable (equipped_ (inventory_ pt)) m →
     equipped_ (inventory_ pt) ≠ equipped_ (inventory_ pr) ∨
       equipped_ (inventory_ pr) = None →
     ∃ pl m',
       Player_copy_assign this rhs m = Some (tt, m') ∧
       players m' !! this = Some pl ∧
       name_ pl = name_ pr ∧
       deep_copy_of (inventory_ pl) (inventory_ pr)
         (freed (equipped_ (inventory_ pt)) (free_store m)) (free_store m') ∧
       inventories m' = inventories m ∧
       (∀ p, p ≠ this → players m' !! p = players m !! p)) ∧
  Player_copy_assign rhs rhs m = Some (tt, m).
Proof.
  intros Hpr Hd. destruct (players_lookup_Some _ _ _ Hpr) as [Hnr Hir].
  split; [|split].
  - destruct (cloned_deep_copy (inventory_ pr) (free_store m)) as (e & h & Hclone & Hdeep).
    { intros l He. unfold deletable in Hd. by rewrite He in Hd. }
    rewrite Player_copy_ctor_eq, Hpr, Hclone. by eexists _, _.
  - intros this pt Hne Hpt Hdt Hdiff.
    destruct (players_lookup_Some _ _ _ Hpt) as [Hnt Hit].
    destruct (cloned_deep_copy (inventory_ pr)
                (freed (equipped_ (inventory_ pt)) (free_store m)))
      as (e & h & Hclone & Hdeep).
    { intros l He. unfold deletable in Hd. rewrite He in Hd.
      destruct (equipped_ (inventory_ pt)) as [lt|] eqn:Het; simpl; [|done].
      rewrite lookup_delete_ne; [done|]. intros <-.
      destruct Hdiff as [Hdiff | Hnone]; congruence. }
    rewrite Player_copy_assign_eq, Hpt, Hpr, decide_True, Hclone by done.
    exists (mkPlayer (name_ pr) (set_equipped_ e (inventory_ pr))). eexists.
    split; [done|]. split; [|split; [done|split; [by mem_simpl|split]]].
    + apply players_lookup; mem_simpl; by rewrite ?Hnt, ?Hit.
    + by destruct m.
    + intros p Hp. destruct m as [h0 objs ps]. unfold update_inv, update_name. simpl.
      by rewrite !lookup_alter_ne.
  - unfold Player_copy_assign. by rewrite decide_False by (by intros []).
Qed.
End player_copies.

(** ** What the raw pointer allows, and what the constructor computes *)

Section sharing.
Implicit Types (m : Mem) (a b : iref) (ia ib : Inventory) (l : loc).

(** X13. Sharing is fatal.  If two different Inventories have the same
    Item equipped (the constructor and [equip] take any pointer), then
    destroying both is undefined (the Item is deleted twice), copy
    assigning one from the other is undefined (the Item is deleted and
    then copied), and after one discards its Item, a use of the Item
    through the other is undefined. *)
Theorem shared_item_is_fatal m a b ia ib l v :
  a ≠ b →
  lookup_inv a m = Some ia →
  lookup_inv b m = Some ib →
  equipped_ ia = Some l →
  equipped_ ib = Some l →
  (Inventory_dtor a;; Inventory_dtor b) m = None ∧
  Inventory_copy_assign a b m = None ∧
  (discardEquipped a;; mutate_equipped b v) m = None.
Proof.
  intros Hne Ha Hb Hea Heb. split; [|split].
  - unfold bind. rewrite Inventory_dtor_eq, Ha. case_decide; [|done].
    rewrite Inventory_dtor_eq. mem_simpl. rewrite Hb, Hea, Heb.
    rewrite decide_False; [done|]. simpl. mem_simpl.
    rewrite lookup_delete_eq. by intros [].
  - rewrite Inventory_copy_assign_eq, Ha, Hb by done. case_decide; [|done].
    rewrite Hea, Heb. simpl. by rewrite lookup_delete_eq.
  - unfold bind at 1. rewrite discardEquipped_eq, Ha, Hea. case_decide; [|done].
    unfold mutate_equipped, bind. rewrite call_eq. mem_simpl. rewrite Hb. simpl.
    rewrite Heb. unfold assign_Item. mem_simpl. by rewrite lookup_delete_eq.
Qed.

(** X14. What a constructed Inventory reports: [getItems] and
    [getEquipped] return the grid and the pointer given, [getWeight] the
    [float] sum of the weights of the cells whose category is not [NONE],
    added row by row from the left starting from 0, and [getCount] the
    number of those cells as a [size_t], which is their number when the
    grid has fewer than [2^64] cells.  The equipped Item is not counted
    and not weighed. *)
Theorem Inventory_ctor_getters items equipped :
  let this := Inventory_ctor items equipped in
  getItems this = (Returned items, this) ∧
  getEquipped this = (Returned equipped, this) ∧
  getWeight this = (Returned (float_sum (occupied items)), this) ∧
  getCount this =
    (Returned (SizeT.wrap (Z.of_nat (length (occupied items)))), this) ∧
  (Z.of_nat (length (concat items)) < SizeT.modulus →
   item_count_ this = Z.of_nat (length (occupied items))).
Proof.
  intros this. subst this. rewrite Inventory_ctor_eq.
  unfold getItems, getEquipped, getWeight, getCount, const_method. simpl.
  repeat split. intros Hsmall. unfold SizeT.wrap. apply Z.mod_small.
  pose proof (length_filter (λ it, Item.type_ it ≠ NONE) (concat items)).
  unfold occupied. lia.
Qed.
End sharing.

(** ** The further properties at work on sample data *)

Section more_examples.
Lemma store_then_at_witness :
  let this' := mkInventory [[potion]] None (Float32.of_Z 1 (-1)) 1 in
  store 0 0 potion one_cell = (Returned true, this') ∧
  at_ 0 0 this' = (Returned potion, this').
Proof.
  intros this'.
  assert (store 0 0 potion one_cell = (Returned true, this')) as Hstore
    by (vm_compute; reflexivity).
  split; [exact Hstore|].
  exact (proj1 (store_then_at one_cell 0 0 potion this' Hstore)).
Defined.

Lemma stored_item_stays_witness :
  let this := Inventory_ctor grid2x2 None in
  let calls := [(1, 0, potion); (0, 1, ghost); (7, 7, shield)]%nat in
  cell_at 1 0 (inventory_grid_ this) = Some sword ∧
  at_ 1 0 (store_all calls this) = (Returned sword, store_all calls this).
Proof.
  intros this calls.
  assert (cell_at 1 0 (inventory_grid_ this) = Some sword) as Hc by reflexivity.
  split; [exact Hc|].
  apply (stored_item_stays this calls 1 0 sword Hc). vm_compute. discriminate.
Defined.

Lemma assignment_is_destroy_then_construct_witness :
  InvObj L2 ≠ InvObj L1 ∧
  Inventory_copy_assign (InvObj L2) (InvObj L1) sample_mem =
    (Inventory_dtor (InvObj L2);;
     let* i := Inventory_copy_ctor (InvObj L1) in emplace (InvObj L2) i) sample_mem.
Proof.
  assert (InvObj L2 ≠ InvObj L1) as Hne by discriminate.
  split; [exact Hne|].
  exact (proj1 (assignment_is_destroy_then_construct (InvObj L2) (InvObj L1)
                  sample_mem Hne)).
Defined.

Lemma move_round_trip_witness :
  ∃ m1 this m2 m3,
    Inventory_move_ctor (InvObj L1) sample_mem =
      Some (mkInventory grid2x2 (Some L1) (Float32.of_Z 42 0) 4, m1) ∧
    place_Inventory (mkInventory grid2x2 (Some L1) (Float32.of_Z 42 0) 4) m1 =
      Some (this, m2) ∧
    Inventory_move_assign (InvObj L1) this m2 = Some (tt, m3) ∧
    lookup_inv (InvObj L1) m3 =
      Some (mkInventory grid2x2 (Some L1) (Float32.of_Z 42 0) 4) ∧
    free_store m3 = free_store sample_mem.
Proof.
  destruct (move_round_trip (InvObj L1) sample_mem
              (mkInventory grid2x2 (Some L1) (Float32.of_Z 42 0) 4) eq_refl)
    as (m1 & this & m2 & m3 & Hctor & Hplace & Hassign & Hrhs & _ & _ & Hfs & _).
  exists m1, this, m2, m3. repeat split; assumption.
Defined.

Lemma owned_members_defined_witness :
  owns_ok sample_mem ∧
  is_Some (Inventory_copy_assign (InvObj L2) (inventory_of L1) sample_mem) ∧
  is_Some (Inventory_dtor (InvObj L2) sample_mem).
Proof.
  split; [exact owns_ok_sample|].
  destruct (owned_members_defined sample_mem (InvObj L2) (inventory_of L1)
              (Inventory_ctor [[blank; potion]] None)
              (Inventory_ctor grid2x2 (Some L2))
              owns_ok_sample eq_refl eq_refl)
    as (_ & _ & Hcopy & _ & _ & Hdtor).
  split; [exact Hcopy | exact Hdtor].
Defined.

Lemma members_keep_holders_witness :
  let o := Op_copy_assign (InvObj L2) (InvObj L1) in
  looks_after o sample_mem ∧
  exec o sample_mem = Some (tt, run (exec o) sample_mem) ∧
  keeps_holders sample_mem (run (exec o) sample_mem).
Proof.
  intros o.
  assert (exec o sample_mem = Some (tt, run (exec o) sample_mem)) as Hexec
    by (vm_compute; reflexivity).
  split; [exact I|]. split; [exact Hexec|].
  exact (proj1 (members_keep_holders o sample_mem _ I Hexec)).
Defined.

Lemma disciplined_program_defined_witness :
  let prog := [Op_move_assign (InvObj L2) (InvObj L1); Op_destroy_Inventory L1] in
  owns_ok sample_mem ∧ checked_run prog sample_mem ∧
  ∃ m', exec_all prog sample_mem = Some (tt, m') ∧ owns_ok m'.
Proof.
  intros prog.
  assert (checked_run prog sample_mem) as Hrun.
  { split; [exact I|]. split; [split; vm_compute; eexists; reflexivity|].
    intros m1 Hexec. vm_compute in Hexec. injection Hexec as <-.
    split; [exact I|]. split; [vm_compute; eexists; reflexivity|].
    intros m2 _. exact I. }
  split; [exact owns_ok_sample|]. split; [exact Hrun|].
  exact (disciplined_program_defined prog sample_mem owns_ok_sample Hrun).
Defined.

Lemma equip_orphans_previous_witness :
  ∃ m', exec (Op_equip (InvObj L1) None) sample_mem = Some (tt, m') ∧
        free_store m' !! L1 = Some shield ∧
        unowned (Some L1) m'.
Proof.
  destruct (equip_orphans_previous sample_mem (InvObj L1)
              (Inventory_ctor grid2x2 (Some L1)) L1 shield None
              owns_ok_sample eq_refl eq_refl eq_refl)
    as (m' & Hexec & Hlive & Hun & _).
  - discriminate.
  - exists m'. repeat split; assumption.
Defined.

Lemma temporary_copy_leaves_no_trace_witness :
  temporary_copy (InvObj L1) sample_mem = Some (tt, sample_mem).
Proof.
  apply (temporary_copy_leaves_no_trace sample_mem (InvObj L1)
           (Inventory_ctor grid2x2 (Some L1)) eq_refl).
  vm_compute. eexists. reflexivity.
Defined.

Lemma Player_ctor_copies_deep_witness :
  ∃ pl m1 p m',
    Player_ctor "Page" (InvObj L1) sample_mem = Some (pl, m1) ∧
    place_Player pl m1 = Some (p, m') ∧
    getName p m' = Some ("Page", m') ∧
    inventory_grid_ (inventory_ pl) = grid2x2.
Proof.
  destruct (Player_ctor_copies_deep "Page" (InvObj L1) sample_mem
              (Inventory_ctor grid2x2 (Some L1)) eq_refl)
    as (pl & m1 & p & m' & Hctor & Hplace & (Hgrid & _) & Hname & _).
  - vm_compute. eexists. reflexivity.
  - exists pl, m1, p, m'. repeat split; assumption.
Defined.

Lemma Player_copy_is_deep_witness :
  ∃ pl m1,
    Player_copy_ctor L1 sample_mem = Some (pl, m1) ∧
    name_ pl = "Knight" ∧
    players m1 = players sample_mem.
Proof.
  destruct (Player_copy_is_deep L1 sample_mem
              (mkPlayer "Knight" (Inventory_ctor grid2x2 (Some L2))) eq_refl)
    as ((pl & m1 & Hctor & Hname & _ & _ & Hplayers) & _).
  - vm_compute. eexists. reflexivity.
  - exists pl, m1. repeat split; assumption.
Defined.

Lemma shared_item_is_fatal_witness :
  lookup_inv (InvObj L1) two_owners = Some (Inventory_ctor grid2x2 (Some L1)) ∧
  lookup_inv (InvObj L2) two_owners = Some (Inventory_ctor [[blank]] (Some L1)) ∧
  (Inventory_dtor (InvObj L1);; Inventory_dtor (InvObj L2)) two_owners = None.
Proof.
  assert (lookup_inv (InvObj L1) two_owners = Some (Inventory_ctor grid2x2 (Some L1)))
    as H1 by (vm_compute; reflexivity).
  assert (lookup_inv (InvObj L2) two_owners = Some (Inventory_ctor [[blank]] (Some L1)))
    as H2 by (vm_compute; reflexivity).
  split; [exact H1|]. split; [exact H2|].
  refine (proj1 (shared_item_is_fatal two_owners (InvObj L1) (InvObj L2) _ _ L1 blank
                   _ H1 H2 _ _)).
  - discriminate.
  - vm_compute. reflexivity.
  - vm_compute. reflexivity.
Defined.
End more_examples.
